(** * A shallow embedding of [secret_santa.py] (hli/secret-santa)

    The script reads a configuration file into a dictionary, draws a
    random greedy assignment of givers to receivers (retrying a bounded
    number of times), tags it with a short identifier taken from a UUID
    and reports it.  This file embeds the parts the specification talks
    about:

    - Python string helpers ([str.strip], [str.split], slicing) over
      [string] (ASCII text);
    - the process-wide random source as an explicit stream of draws, with
      [random.shuffle] and [random.choice] as CPython implements them;
    - [parse_config_file], [get_assignments] and the retry loop of
      [__main__];
    - [uuid.uuid4().hex[:MAX_ASSIGNMENT_UUID_LENGTH]];
    - a heap of Python objects, in which [get_assignments] is replayed to
      observe which objects it writes. *)

From Stdlib Require Import Ascii String ZArith Lia.
From stdpp Require Import base gmap sets list strings.

Open Scope string_scope.

(* ================================================================= *)
(** ** Python exceptions and results *)

(** The messages of the [Exception]s raised by the script, with the data
    they format. *)
Inductive message :=
| BadExclusionFormat (assignment_exclusions : string)
| DuplicatePersonId (person_id : string)
| UnknownExclusionIds (ids : gset string)
| MissingAdministratorEmail
| MissingAdministratorEmailPassword
| MissingParticipants
| AssignmentInfeasible (attempts : nat).

Inductive exn :=
| KeyError (key : string)
| ValueError
| IndexError
| TypeError
| Exception (msg : message).

(** A computation that returns a value or raises. *)
Inductive res (A : Type) :=
| Ok (a : A)
| Raise (e : exn).
Arguments Ok {A} a.
Arguments Raise {A} e.

(* ================================================================= *)
(** ** Python string helpers *)

Module PyStr.

(** [str.isspace] on one ASCII character: [\t \n \v \f \r], the
    separators [\x1c]..[\x1f] and the space. *)
Definition is_space (c : ascii) : bool :=
  let n := nat_of_ascii c in
  (Nat.leb 9 n && Nat.leb n 13) || (Nat.leb 28 n && Nat.leb n 32).

Fixpoint drop_space (l : list ascii) : list ascii :=
  match l with
  | [] => []
  | c :: l' => if is_space c then drop_space l' else l
  end.

(** [s.strip()] *)
Definition strip (s : string) : string :=
  string_of_list_ascii
    (rev (drop_space (rev (drop_space (list_ascii_of_string s))))).

Fixpoint split_chars (sep : ascii) (l : list ascii) : list (list ascii) :=
  match l with
  | [] => [[]]
  | c :: l' =>
      let rest := split_chars sep l' in
      if Ascii.eqb c sep then [] :: rest
      else match rest with
           | [] => [[c]]
           | w :: ws => (c :: w) :: ws
           end
  end.

(** [s.split(sep)] for a one-character separator. *)
Definition split (sep : ascii) (s : string) : list string :=
  map string_of_list_ascii (split_chars sep (list_ascii_of_string s)).

(** [s[1:-1]] *)
Definition slice_1_m1 (s : string) : string :=
  let l := list_ascii_of_string s in
  string_of_list_ascii (take (length l - 2) (drop 1 l)).

(** [s[0]] and [s[-1]] on a non-empty string. *)
Definition first_char (s : string) : option ascii :=
  head (list_ascii_of_string s).
Definition last_char (s : string) : option ascii :=
  last (list_ascii_of_string s).

End PyStr.

(* ================================================================= *)
(** ** The random source *)

Module Rand.

(** The process-wide generator, seen as the stream of the values that
    successive calls of [_randbelow] return.  [randbelow n] consumes one
    draw and reduces it below [n], so every stream is a legal source. *)
Definition rstate := nat -> nat.

Definition randbelow (n : nat) (r : rstate) : nat * rstate :=
  (r 0 mod n, fun k => r (S k)).

(** A stream starting with the draws [ds]. *)
Fixpoint prepend (ds : list nat) (r : rstate) : rstate :=
  match ds with
  | [] => r
  | d :: ds' => fun k => match k with 0 => d | S k' => prepend ds' r k' end
  end.

(** [x[i], x[j] = x[j], x[i]]; the indices are in range at every use. *)
Definition swap {A} (x : list A) (i j : nat) : list A :=
  match x !! i, x !! j with
  | Some xi, Some xj => <[j := xi]> (<[i := xj]> x)
  | _, _ => x
  end.

(** CPython's [random.shuffle]:
<<
    for i in reversed(range(1, len(x))):
        j = randbelow(i + 1)
        x[i], x[j] = x[j], x[i]
>>
    [shuffle_loop i] runs the iterations for [i, i-1, ..., 1]. *)
Fixpoint shuffle_loop {A} (i : nat) (x : list A) (r : rstate) : list A * rstate :=
  match i with
  | 0 => (x, r)
  | S i' =>
      let '(j, r') := randbelow (S i) r in
      shuffle_loop i' (swap x i j) r'
  end.

Definition shuffle {A} (x : list A) (r : rstate) : list A * rstate :=
  shuffle_loop (length x - 1) x r.

(** CPython's [random.choice]:
<<
    if not len(seq): raise IndexError(...)
    return seq[self._randbelow(len(seq))]
>> *)
Definition choice {A} (seq : list A) (r : rstate) : res (A * rstate) :=
  match seq with
  | [] => Raise IndexError
  | _ =>
      let '(i, r') := randbelow (length seq) r in
      match seq !! i with
      | Some x => Ok (x, r')
      | None => Raise IndexError
      end
  end.

(** The draw sequences [shuffle_loop i] consumes with every draw in the
    range [randbelow] gives it: the draw for index [i] lies below [i + 1]. *)
Fixpoint draws_in_range (i : nat) (ds : list nat) : bool :=
  match i, ds with
  | 0, [] => true
  | S i', d :: ds' => Nat.ltb d (S i) && draws_in_range i' ds'
  | _, _ => false
  end.

End Rand.

Import Rand.

(* ================================================================= *)
(** ** The configuration *)

Definition ADMINISTRATOR_EMAIL_KEY := "administrator_email".
Definition ADMINISTRATOR_EMAIL_PASSWORD_KEY := "administrator_email_password".
Definition PARTICIPANTS_KEY := "participants".

(** A value of [config[PARTICIPANTS_KEY]]: the dictionary with keys
    [name], [email] and [exclusion_ids]. *)
Record participant := {
  name : string;
  email : string;
  exclusion_ids : gset string
}.

(** The dictionary [config] while the file is being read: each of its
    three keys may still be absent. *)
Record cfg_dict := {
  cd_administrator_email : option string;
  cd_administrator_email_password : option string;
  cd_participants : option (gmap string participant)
}.

Definition cfg_empty : cfg_dict := Build_cfg_dict None None None.

(** The dictionary [parse_config_file] returns: its checks ensure that
    all three keys are present. *)
Record Config := {
  administrator_email : string;
  administrator_email_password : string;
  participants : gmap string participant
}.

(* ================================================================= *)
(** ** [parse_config_file] *)

Module Parse.
Import PyStr.

(** The format check of line 77:
    [not ax or ax[0] != '(' or ax[-1] != ')']. *)
Definition bad_exclusion_format (assignment_exclusions : string) : bool :=
  match first_char assignment_exclusions, last_char assignment_exclusions with
  | Some c0, Some cl => negb (Ascii.eqb c0 "(") || negb (Ascii.eqb cl ")")
  | _, _ => true
  end.

(** Lines 81-84: the exclusion set of a participant line. *)
Definition parse_exclusion_ids (person_id assignment_exclusions : string) : gset string :=
  let exclusion_ids : gset string :=
    list_to_set (map strip (split ";" (slice_1_m1 assignment_exclusions))) in
  let exclusion_ids :=
    if decide ("" ∈ exclusion_ids) then exclusion_ids ∖ {[ "" ]} else exclusion_ids in
  exclusion_ids ∪ {[ person_id ]}.

(** One participant line (line number 2 and later), lines 71-95, on the
    dictionary [config] and the set [all_exclusion_ids]. *)
Definition parse_participant_line (line : string) (config : cfg_dict)
    (all_exclusion_ids : gset string) : res (cfg_dict * gset string) :=
  if String.eqb (strip line) "" then Ok (config, all_exclusion_ids) else
  match map strip (split "," line) with
  | [person_id; name; email; assignment_exclusions] =>
      if bad_exclusion_format assignment_exclusions
      then Raise (Exception (BadExclusionFormat assignment_exclusions)) else
      let exclusion_ids := parse_exclusion_ids person_id assignment_exclusions in
      let all_exclusion_ids := all_exclusion_ids ∪ exclusion_ids in
      (* config.setdefault(PARTICIPANTS_KEY, {}) *)
      let pd := default ∅ (cd_participants config) in
      if decide (person_id ∈ dom pd)
      then Raise (Exception (DuplicatePersonId person_id)) else
      Ok ({| cd_administrator_email := cd_administrator_email config;
             cd_administrator_email_password := cd_administrator_email_password config;
             cd_participants :=
               Some (<[ person_id := {| name := name; email := email;
                                        exclusion_ids := exclusion_ids |} ]> pd) |},
          all_exclusion_ids)
  | _ => Raise ValueError  (* the unpacking of line 74 *)
  end.

(** [for line_number, line in enumerate(cfg_file)], lines 65-95. *)
Fixpoint parse_lines (line_number : nat) (lines : list string) (config : cfg_dict)
    (all_exclusion_ids : gset string) : res (cfg_dict * gset string) :=
  match lines with
  | [] => Ok (config, all_exclusion_ids)
  | line :: lines' =>
      match line_number with
      | 0 =>
          parse_lines 1 lines'
            {| cd_administrator_email := Some (strip line);
               cd_administrator_email_password := cd_administrator_email_password config;
               cd_participants := cd_participants config |} all_exclusion_ids
      | 1 =>
          parse_lines 2 lines'
            {| cd_administrator_email := cd_administrator_email config;
               cd_administrator_email_password := Some line;
               cd_participants := cd_participants config |} all_exclusion_ids
      | _ =>
          match parse_participant_line line config all_exclusion_ids with
          | Raise e => Raise e
          | Ok (config', all') => parse_lines (S line_number) lines' config' all'
          end
      end
  end.

(** Lines 97-109. *)
Definition check_config (config : cfg_dict) (all_exclusion_ids : gset string) : res Config :=
  match cd_participants config with
  | None => Raise (KeyError PARTICIPANTS_KEY)  (* config[PARTICIPANTS_KEY].keys() *)
  | Some pd =>
      let all_participants := dom pd in
      let unknown_exclusion_ids := all_exclusion_ids ∖ all_participants in
      if decide (unknown_exclusion_ids ≠ ∅)
      then Raise (Exception (UnknownExclusionIds unknown_exclusion_ids)) else
      match cd_administrator_email config with
      | None => Raise (Exception MissingAdministratorEmail)
      | Some e =>
          match cd_administrator_email_password config with
          | None => Raise (Exception MissingAdministratorEmailPassword)
          | Some pw =>
              match cd_participants config with
              | None => Raise (Exception MissingParticipants)
              | Some pd' =>
                  Ok {| administrator_email := e;
                        administrator_email_password := pw;
                        participants := pd' |}
              end
          end
      end
  end.

(** [parse_config_file]: the file is given as the lines Python's file
    iterator yields, each with its line terminator. *)
Definition parse_config_file (lines : list string) : res Config :=
  match parse_lines 0 lines cfg_empty ∅ with
  | Raise e => Raise e
  | Ok (config, all_exclusion_ids) => check_config config all_exclusion_ids
  end.

End Parse.

Import Parse.

(* ================================================================= *)
(** ** [get_assignments] and the retry loop *)

Module Santa.

(** An assignment: the dictionary from giver to receiver. *)
Abbreviation assignment := (gmap string string).

(** The [for] loop of lines 124-133, over the shuffled givers [order]
    with the set [remaining_participants] and the dictionary
    [assignments] built so far.  [tuple(available_participants)] lists
    the set in its iteration order, here [elements]. *)
Fixpoint assign_loop (participant_data : gmap string participant)
    (order : list string) (remaining_participants : gset string)
    (assignments : assignment) (r : rstate) : res (option assignment * rstate) :=
  match order with
  | [] => Ok (Some assignments, r)
  | participant :: order' =>
      match participant_data !! participant with
      | None => Raise (KeyError participant)
      | Some pdata =>
          let available_participants := remaining_participants ∖ exclusion_ids pdata in
          if decide (available_participants = ∅) then Ok (None, r) else
          match choice (elements available_participants) r with
          | Raise e => Raise e
          | Ok (assignment, r') =>
              (* remaining_participants.remove(assignment) *)
              if decide (assignment ∈ remaining_participants) then
                assign_loop participant_data order'
                  (remaining_participants ∖ {[ assignment ]})
                  (<[ participant := assignment ]> assignments) r'
              else Raise (KeyError assignment)
          end
      end
  end.

(** [get_assignments(config)], lines 111-135.  [list(participant_data.keys())]
    lists the keys in the map's order (Python's is insertion order; the
    shuffle follows either way), [set(participant_data.keys())] is [dom]. *)
Definition get_assignments (config : Config) (r : rstate) : res (option assignment * rstate) :=
  let participant_data := participants config in
  let '(all_participants_randomized, r1) :=
    shuffle ((map_to_list participant_data).*1) r in
  let remaining_participants := dom participant_data in
  assign_loop participant_data all_participants_randomized remaining_participants ∅ r1.

Definition MAX_ASSIGNMENT_ATTEMPTS : nat := 3.

(** Python truthiness of [assignments]: [None] and [{}] are false. *)
Definition truthy (assignments : option assignment) : bool :=
  match assignments with
  | None => false
  | Some a => negb (bool_decide (a = ∅))
  end.

(** The variables of the loop of lines 219-223, with [calls], a ghost
    record of the results of the successive calls of [get_assignments]. *)
Record loop_state := {
  attempts : nat;
  assignments : option assignment;
  rng : rstate;
  calls : list (option assignment)
}.

Definition loop_init (r : rstate) : loop_state :=
  {| attempts := 0; assignments := None; rng := r; calls := [] |}.

(** [while attempts <= MAX_ASSIGNMENT_ATTEMPTS and not assignments:],
    run for at most [fuel] iterations. *)
Fixpoint retry_loop (fuel : nat) (config : Config) (st : loop_state) : res loop_state :=
  match fuel with
  | 0 => Ok st
  | S fuel' =>
      if Nat.leb (attempts st) MAX_ASSIGNMENT_ATTEMPTS && negb (truthy (assignments st)) then
        match get_assignments config (rng st) with
        | Raise e => Raise e
        | Ok (a, r') =>
            retry_loop fuel' config
              {| attempts := attempts st + 1; assignments := a; rng := r';
                 calls := calls st ++ [a] |}
        end
      else Ok st
  end.

(** The loop terminates within [MAX_ASSIGNMENT_ATTEMPTS + 1] iterations
    ([attempts] grows by one each time), which is the fuel given here;
    [retry_loop_fuel_enough] shows that more fuel changes nothing. *)
Definition retry_fuel : nat := S MAX_ASSIGNMENT_ATTEMPTS.

(** Lines 219-226: the loop, then [if not assignments: raise Exception(...)]. *)
Definition assign_with_retries (config : Config) (r : rstate) : res (assignment * rstate) :=
  match retry_loop retry_fuel config (loop_init r) with
  | Raise e => Raise e
  | Ok st =>
      match assignments st with
      | Some a => if bool_decide (a = ∅)
                  then Raise (Exception (AssignmentInfeasible (attempts st)))
                  else Ok (a, rng st)
      | None => Raise (Exception (AssignmentInfeasible (attempts st)))
      end
  end.

End Santa.

Import Santa.

(** ** One attempt as the specification describes it *)

Module SpecGreedy.

(** The greedy process of the specification, as a relation: the givers
    are taken in [order]; for each one, [available] is the pool of
    remaining receivers minus the giver's exclusion set; an empty
    [available] ends the attempt with no result, otherwise any receiver
    of [available] is recorded for the giver and removed from the pool;
    when every giver is processed the mapping built is the result. *)
Inductive greedy_attempt (registry : gmap string participant) :
    list string → gset string → assignment → option assignment → Prop :=
  | greedy_done remaining assignments :
      greedy_attempt registry [] remaining assignments (Some assignments)
  | greedy_stuck giver order remaining assignments pdata :
      registry !! giver = Some pdata →
      remaining ∖ exclusion_ids pdata = ∅ →
      greedy_attempt registry (giver :: order) remaining assignments None
  | greedy_pick giver order remaining assignments pdata receiver result :
      registry !! giver = Some pdata →
      receiver ∈ remaining ∖ exclusion_ids pdata →
      greedy_attempt registry order (remaining ∖ {[ receiver ]})
        (<[ giver := receiver ]> assignments) result →
      greedy_attempt registry (giver :: order) remaining assignments result.

End SpecGreedy.

Import SpecGreedy.

(* ================================================================= *)
(** ** The assignment identifier *)

Module Uuid.

Definition MAX_ASSIGNMENT_UUID_LENGTH : nat := 7.

(** [int.from_bytes(bytes, 'big')] *)
Definition int_from_bytes (b : list Byte.byte) : Z :=
  fold_left (fun acc x => acc * 256 + Z.of_N (Byte.to_N x))%Z b 0%Z.

(** [UUID(bytes=os.urandom(16), version=4).int]:
<<
    int &= ~(0xc000 << 48)
    int |= 0x8000 << 48
    int &= ~(0xf000 << 64)
    int |= version << 76
>> *)
Definition uuid4_int (b : list Byte.byte) : Z :=
  let n := int_from_bytes b in
  let n := Z.land n (Z.lnot (Z.shiftl 49152 48)) in
  let n := Z.lor n (Z.shiftl 32768 48) in
  let n := Z.land n (Z.lnot (Z.shiftl 61440 64)) in
  Z.lor n (Z.shiftl 4 76).

Definition hex_digit (d : Z) : ascii :=
  match d with
  | 0%Z => "0" | 1%Z => "1" | 2%Z => "2" | 3%Z => "3"
  | 4%Z => "4" | 5%Z => "5" | 6%Z => "6" | 7%Z => "7"
  | 8%Z => "8" | 9%Z => "9" | 10%Z => "a" | 11%Z => "b"
  | 12%Z => "c" | 13%Z => "d" | 14%Z => "e" | _ => "f"
  end.

(** The lowercase hexadecimal digits of [n >= 0], most significant first. *)
Fixpoint hex_digits (fuel : nat) (n : Z) (acc : list ascii) : list ascii :=
  match fuel with
  | 0 => acc
  | S fuel' =>
      let acc := hex_digit (n mod 16) :: acc in
      if Z.eqb (n / 16) 0 then acc else hex_digits fuel' (n / 16) acc
  end.

Definition hex_nonneg (n : Z) : list ascii :=
  hex_digits (S (Z.to_nat (Z.log2 n))) n [].

Definition zero_pad (width : nat) (l : list ascii) : list ascii :=
  repeat "0"%char (width - length l) ++ l.

(** ['%032x' % n] *)
Definition format_032x (n : Z) : string :=
  string_of_list_ascii
    (if Z.ltb n 0 then "-"%char :: zero_pad 31 (hex_nonneg (- n))
     else zero_pad 32 (hex_nonneg n)).

(** [UUID.hex] *)
Definition uuid_hex (b : list Byte.byte) : string := format_032x (uuid4_int b).

(** [str(uuid.uuid4().hex[:MAX_ASSIGNMENT_UUID_LENGTH])], line 229, with
    [b] the 16 random bytes of [uuid4]. *)
Definition assignment_uuid (b : list Byte.byte) : string :=
  string_of_list_ascii (take MAX_ASSIGNMENT_UUID_LENGTH (list_ascii_of_string (uuid_hex b))).

Definition is_lower_hex (c : ascii) : bool :=
  let n := nat_of_ascii c in
  (Nat.leb 48 n && Nat.leb n 57) || (Nat.leb 97 n && Nat.leb n 102).

End Uuid.

(* ================================================================= *)
(** ** [get_assignments] on a heap of Python objects *)

(** Python passes [config] by reference: the registry is a graph of
    dictionaries and sets that [get_assignments] reads.  Here the same
    function runs on an explicit heap, so that the objects it writes can
    be observed.  Strings are immutable values; dictionaries, sets and
    lists are objects at locations. *)
Module Heap.

Definition loc := nat.

Inductive pyval :=
| PNone
| PStr (s : string)
| PRef (l : loc).

Inductive obj :=
| OSet (s : gset string)
| OList (xs : list string)
| ODict (d : gmap string pyval).

(** The heap, its next free location, and the random source. *)
Record state := {
  mem : gmap loc obj;
  next : loc;
  rnd : rstate
}.

Definition M (A : Type) := state -> res A * state.

Definition ret {A} (a : A) : M A := fun s => (Ok a, s).

Definition bind {A B} (m : M A) (k : A -> M B) : M B :=
  fun s => match m s with
           | (Ok a, s') => k a s'
           | (Raise e, s') => (Raise e, s')
           end.

Notation "x <- m ;; k" := (bind m (fun x => k))
  (at level 100, m at next level, right associativity).

Definition throw {A} (e : exn) : M A := fun s => (Raise e, s).

Definition read (l : loc) : M obj :=
  fun s => match mem s !! l with
           | Some o => (Ok o, s)
           | None => (Raise TypeError, s)
           end.

Definition write (l : loc) (o : obj) : M unit :=
  fun s => (Ok tt, {| mem := <[ l := o ]> (mem s); next := next s; rnd := rnd s |}).

Definition alloc (o : obj) : M loc :=
  fun s => (Ok (next s),
            {| mem := <[ next s := o ]> (mem s); next := S (next s); rnd := rnd s |}).

(** One use of the random source. *)
Definition draw {A} (f : rstate -> A * rstate) : M A :=
  fun s => let '(a, r') := f (rnd s) in
           (Ok a, {| mem := mem s; next := next s; rnd := r' |}).

Definition draw_res {A} (f : rstate -> res (A * rstate)) : M A :=
  fun s => match f (rnd s) with
           | Ok (a, r') => (Ok a, {| mem := mem s; next := next s; rnd := r' |})
           | Raise e => (Raise e, s)
           end.

Definition as_ref (v : pyval) : M loc :=
  match v with
  | PRef l => ret l
  | _ => throw TypeError
  end.

(** [d[k]] *)
Definition dict_getitem (l : loc) (k : string) : M pyval :=
  o <- read l ;;
  match o with
  | ODict d => match d !! k with
               | Some v => ret v
               | None => throw (KeyError k)
               end
  | _ => throw TypeError
  end.

(** [d[k] = v] *)
Definition dict_setitem (l : loc) (k : string) (v : pyval) : M unit :=
  o <- read l ;;
  match o with
  | ODict d => write l (ODict (<[ k := v ]> d))
  | _ => throw TypeError
  end.

(** [list(d.keys())] *)
Definition dict_keys (l : loc) : M (list string) :=
  o <- read l ;;
  match o with
  | ODict d => ret ((map_to_list d).*1)
  | _ => throw TypeError
  end.

Definition set_contents (l : loc) : M (gset string) :=
  o <- read l ;;
  match o with
  | OSet x => ret x
  | _ => throw TypeError
  end.

Definition list_contents (l : loc) : M (list string) :=
  o <- read l ;;
  match o with
  | OList xs => ret xs
  | _ => throw TypeError
  end.

(** [a - b] on two sets: a new set object. *)
Definition set_difference (a b : loc) : M loc :=
  x <- set_contents a ;;
  y <- set_contents b ;;
  alloc (OSet (x ∖ y)).

(** [s.remove(x)] *)
Definition set_remove (l : loc) (x : string) : M unit :=
  o <- read l ;;
  match o with
  | OSet y => if decide (x ∈ y) then write l (OSet (y ∖ {[ x ]})) else throw (KeyError x)
  | _ => throw TypeError
  end.

(** [random.shuffle(xs)], in place. *)
Definition list_shuffle (l : loc) : M unit :=
  o <- read l ;;
  match o with
  | OList xs => ys <- draw (shuffle xs) ;; write l (OList ys)
  | _ => throw TypeError
  end.

(** Lines 124-135. *)
Fixpoint assign_loop (participant_data remaining_participants assignments : loc)
    (order : list string) : M pyval :=
  match order with
  | [] => ret (PRef assignments)
  | participant :: order' =>
      pv <- dict_getitem participant_data participant ;;
      pl <- as_ref pv ;;
      ev <- dict_getitem pl "exclusion_ids" ;;
      assignment_exclusions <- as_ref ev ;;
      available_participants <- set_difference remaining_participants assignment_exclusions ;;
      available <- set_contents available_participants ;;
      if decide (available = ∅) then ret PNone else
      (assignment <- draw_res (choice (elements available)) ;;
       _ <- set_remove remaining_participants assignment ;;
       _ <- dict_setitem assignments participant (PStr assignment) ;;
       assign_loop participant_data remaining_participants assignments order')
  end.

(** [get_assignments(config)], lines 111-135. *)
Definition get_assignments (config : loc) : M pyval :=
  pdv <- dict_getitem config PARTICIPANTS_KEY ;;
  participant_data <- as_ref pdv ;;
  keys <- dict_keys participant_data ;;
  all_participants_randomized <- alloc (OList keys) ;;
  _ <- list_shuffle all_participants_randomized ;;
  keys' <- dict_keys participant_data ;;
  remaining_participants <- alloc (OSet (list_to_set keys')) ;;
  assignments <- alloc (ODict ∅) ;;
  order <- list_contents all_participants_randomized ;;
  assign_loop participant_data remaining_participants assignments order.

(** The registry a heap holds under [config]: every participant record
    read back into a [participant]. *)
Definition decode_participant (m : gmap loc obj) (v : pyval) : option participant :=
  match v with
  | PRef l =>
      match m !! l with
      | Some (ODict d) =>
          match d !! "name", d !! "email", d !! "exclusion_ids" with
          | Some (PStr n), Some (PStr e), Some (PRef x) =>
              match m !! x with
              | Some (OSet ex) => Some {| name := n; email := e; exclusion_ids := ex |}
              | _ => None
              end
          | _, _, _ => None
          end
      | _ => None
      end
  | _ => None
  end.

Definition decode_registry (m : gmap loc obj) (config : loc) : option (gmap string participant) :=
  match m !! config with
  | Some (ODict d) =>
      match d !! PARTICIPANTS_KEY with
      | Some (PRef p) =>
          match m !! p with
          | Some (ODict pd) =>
              let reg := omap (decode_participant m) pd in
              if decide (dom reg = dom pd) then Some reg else None
          | _ => None
          end
      | _ => None
      end
  | _ => None
  end.

(** Every object of the heap lies below [next]. *)
Definition heap_wf (s : state) : Prop := set_Forall (λ l, l < next s) (dom (mem s)).

(** [keeps base m Q]: run from a state whose free locations start at or
    above [base], [m] leaves every location below [base] as it was, and
    its result, if any, satisfies [Q]. *)
Definition keeps (base : loc) {A} (m : M A) (Q : A -> Prop) : Prop :=
  ∀ s, base <= next s ->
    base <= next (m s).2 ∧
    (∀ l, l < base -> mem (m s).2 !! l = mem s !! l) ∧
    (∀ a, (m s).1 = Ok a -> Q a).

End Heap.

(* ================================================================= *)
(** ** Reporting the assignments, and the script's entry point *)

Module Report.

Definition cr : string := String (ascii_of_nat 13) EmptyString.
Definition lf : string := String (ascii_of_nat 10) EmptyString.
Definition crlf : string := cr ++ lf.

(** A Python dictionary from strings to strings as its [items()] list
    it: in insertion order. *)
Abbreviation pydict := (list (string * string)).

(** [d[k] = v]: a key already present keeps its place and takes the new
    value; a new key goes last. *)
Fixpoint dict_set (d : pydict) (k v : string) : pydict :=
  match d with
  | [] => [(k, v)]
  | (k', v') :: d' => if String.eqb k' k then (k', v) :: d' else (k', v') :: dict_set d' k v
  end.

(** ["%s will give to %s." % (giver, getter)] *)
Definition gives_to (giver getter : string) : string :=
  giver ++ " will give to " ++ getter ++ ".".

(** [config[PARTICIPANTS_KEY][id][PARTICIPANT_NAME_KEY]] and
    [config[PARTICIPANTS_KEY][id][PARTICIPANT_EMAIL_KEY]]. *)
Definition participant_name (config : Config) (id : string) : res string :=
  match participants config !! id with
  | Some p => Ok (name p)
  | None => Raise (KeyError id)
  end.

Definition participant_email (config : Config) (id : string) : res string :=
  match participants config !! id with
  | Some p => Ok (email p)
  | None => Raise (KeyError id)
  end.

(** The loop of [pretty_print_assignments], lines 139-140: the lines it
    prints, and how it ends. *)
Fixpoint print_loop (items : pydict) (config : Config) : list string * res unit :=
  match items with
  | [] => ([], Ok tt)
  | (giver, getter) :: items' =>
      match participant_name config giver with
      | Raise e => ([], Raise e)
      | Ok giver_name =>
          match participant_name config getter with
          | Raise e => ([], Raise e)
          | Ok getter_name =>
              let '(out, r) := print_loop items' config in
              (gives_to giver_name getter_name :: out, r)
          end
      end
  end.

(** [pretty_print_assignments(assignment_uuid, assignments, config)],
    lines 137-140, with [items] the list [assignments.items()]. *)
Definition pretty_print_assignments (assignment_uuid : string) (items : pydict)
    (config : Config) : list string * res unit :=
  let '(out, r) := print_loop items config in
  (("Assignment Id: " ++ assignment_uuid) :: out, r).

(** [generate_administrator_email_message], lines 150-158. *)
Definition generate_administrator_email_message (assignment_uuid : string)
    (assignments_by_name : pydict) (administrator_email : string) : string :=
  let subject := "Secret Santa Assignments (" ++ assignment_uuid ++ ")" in
  let content :=
    foldl (λ content '(giver, getter), content ++ gives_to giver getter ++ crlf)
      "" assignments_by_name in
  "Subject: " ++ subject ++ lf ++ lf ++ content.

(** What the script raises, beyond the exceptions of the parsing and
    assignment code. *)
Inductive error :=
| PyExn (e : exn)
| FileNotFoundError (filename : string)
| SMTPException
| FailedToSendAll   (* Exception('Failed to send all e-mails successfully.') *)
| SystemExit (code : nat).

(** What the script does to the outside world: its [print]s (the text,
    without the newline [print] adds) and its SMTP commands. *)
Inductive event :=
| Stdout (s : string)
| PrintError (e : error)                      (* print(e) *)
| SmtpConnect (host : string) (port : nat)    (* smtplib.SMTP(host, port) *)
| SmtpStartTLS
| SmtpLogin (user password : string)
| SmtpSendmail (from_addr to_addr msg : string)
| SmtpQuit.

(** The events so far, and the SMTP server's answers to the successive
    commands: [true] is a success, [false] an [SMTPException]. *)
Record world := {
  trace : list event;
  replies : nat -> bool
}.

Inductive outcome (A : Type) :=
| Return (a : A)
| Fail (e : error).
Arguments Return {A} a.
Arguments Fail {A} e.

Definition IO (A : Type) := world -> outcome A * world.

Definition io_ret {A} (a : A) : IO A := fun w => (Return a, w).

Definition io_bind {A B} (m : IO A) (k : A -> IO B) : IO B :=
  fun w => match m w with
           | (Return a, w') => k a w'
           | (Fail e, w') => (Fail e, w')
           end.

Notation "x <~ m ;; k" := (io_bind m (fun x => k))
  (at level 100, m at next level, right associativity).

Definition io_throw {A} (e : error) : IO A := fun w => (Fail e, w).

Definition lift {A} (r : res A) : IO A :=
  match r with
  | Ok a => io_ret a
  | Raise e => io_throw (PyExn e)
  end.

Definition emit (ev : event) : IO unit :=
  fun w => (Return tt, {| trace := trace w ++ [ev]; replies := replies w |}).

(** One SMTP command: it is sent, then the server's answer is consumed. *)
Definition smtp (ev : event) : IO unit :=
  fun w =>
    let w' := {| trace := trace w ++ [ev]; replies := fun k => replies w (S k) |} in
    if replies w 0 then (Return tt, w') else (Fail SMTPException, w').

(** [try: m except Exception as e: h(e)] *)
Definition try_except {A} (m : IO A) (h : error -> IO A) : IO A :=
  fun w => match m w with
           | (Fail e, w') => h e w'
           | ok => ok
           end.

(** [try: m finally: f] *)
Definition try_finally {A} (m : IO A) (f : IO unit) : IO A :=
  fun w => match m w with
           | (r, w') =>
               match f w' with
               | (Return _, w'') => (r, w'')
               | (Fail e, w'') => (Fail e, w'')
               end
           end.

(** Python truthiness of [email_content]: [None] and [''] are false. *)
Definition content_truthy (email_content : option string) : bool :=
  match email_content with
  | Some c => negb (String.eqb c "")
  | None => false
  end.

(** The body of the [for] loop of lines 174-186, over the items still to
    send, with [assignments_by_name] built so far. *)
Fixpoint send_loop (config : Config) (subject : string) (email_content : option string)
    (items : pydict) (assignments_by_name : pydict) : IO pydict :=
  let administrator_email := administrator_email config in
  match items with
  | [] => io_ret assignments_by_name
  | (giver, getter) :: items' =>
      giver_name <~ lift (participant_name config giver) ;;
      getter_name <~ lift (participant_name config getter) ;;
      let assignments_by_name := dict_set assignments_by_name giver_name getter_name in
      recipient_email <~ lift (participant_email config giver) ;;
      let content := gives_to giver_name getter_name in
      let content :=
        match email_content with
        | Some c => if content_truthy email_content then content ++ crlf ++ crlf ++ c else content
        | None => content
        end in
      let message := "Subject: " ++ subject ++ lf ++ lf ++ content in
      _ <~ smtp (SmtpSendmail administrator_email recipient_email message) ;;
      _ <~ emit (Stdout ("Sent assignment to " ++ recipient_email ++ ".")) ;;
      send_loop config subject email_content items' assignments_by_name
  end.

(** [send_assignment_emails(assignment_uuid, assignments, config,
    email_content)], lines 160-197, with [items] the list
    [assignments.items()]. *)
Definition send_assignment_emails (assignment_uuid : string) (items : pydict)
    (config : Config) (email_content : option string) : IO unit :=
  let administrator_email := administrator_email config in
  let administrator_password := administrator_email_password config in
  _ <~ smtp (SmtpConnect "smtp.gmail.com" 587) ;;
  _ <~ smtp SmtpStartTLS ;;
  _ <~ smtp (SmtpLogin administrator_email administrator_password) ;;
  try_finally
    (try_except
       (let subject := "Alert: Secret Santa Assignment (" ++ assignment_uuid ++ ")" in
        assignments_by_name <~ send_loop config subject email_content items [] ;;
        let administrator_email_message :=
          generate_administrator_email_message assignment_uuid assignments_by_name
            administrator_email in
        _ <~ smtp (SmtpSendmail administrator_email administrator_email
                     administrator_email_message) ;;
        emit (Stdout ("Sent all assignments to " ++ administrator_email ++ ".")))
       (λ e, _ <~ emit (PrintError e) ;; io_throw FailedToSendAll))
    (smtp SmtpQuit).

End Report.

Import Report.

Module Main.

(** The files the script may open, each with its content as text-mode
    reading gives it (line ends translated to ["\n"]). *)
Definition files := string -> option string.

(** Python's iteration over a text file: the lines, each with its
    ["\n"], the last one without it if the file does not end in one. *)
Fixpoint split_lines (l : list ascii) : list (list ascii) :=
  match l with
  | [] => []
  | c :: l' =>
      if Ascii.eqb c (ascii_of_nat 10) then [c] :: split_lines l'
      else match split_lines l' with
           | [] => [[c]]
           | w :: ws => (c :: w) :: ws
           end
  end.

Definition file_lines (content : string) : list string :=
  map string_of_list_ascii (split_lines (list_ascii_of_string content)).

(** [open(filename, 'r')]: its content, or [FileNotFoundError]. *)
Definition open_read (fs : files) (filename : string) : IO string :=
  match fs filename with
  | Some c => io_ret c
  | None => io_throw (FileNotFoundError filename)
  end.

(** [get_email_content(email_content_filename)], lines 142-148. *)
Definition get_email_content (fs : files) (email_content_filename : option string) :
    IO (option string) :=
  match email_content_filename with
  | Some fn =>
      if String.eqb fn "" then io_ret None else
      c <~ open_read fs fn ;; io_ret (Some c)
  | None => io_ret None
  end.

(** The command line, lines 200-215, for [sys.argv = prog :: args].  In
    the print mode [email_content_filename] is left unbound by the script
    and never read; it is [None] here. *)
Inductive mode :=
| Usage
| Run (config_filename : string) (should_send_email : bool)
      (email_content_filename : option string).

Definition dispatch (args : list string) : mode :=
  match args with
  | [a1] => Run a1 true None
  | [a1; a2] => if String.eqb a1 "-p" then Run a2 false None else Run a1 true (Some a2)
  | _ => Usage
  end.

Section Main.

(** [assignments.items()] of the dictionary [get_assignments] built: its
    pairs, in the order of insertion, which [Santa.assign_with_retries]
    does not keep.  Every property below holds whatever that order is. *)
Variable items_of : assignment -> pydict.

(** The [__main__] block, lines 199-235: [sys.argv] is [prog :: args],
    [r] the random source and [uuid_bytes] the 16 bytes [uuid4] draws. *)
Definition main (prog : string) (args : list string) (fs : files) (r : rstate)
    (uuid_bytes : list Byte.byte) : IO unit :=
  match dispatch args with
  | Usage =>
      _ <~ emit (Stdout ("To generate and send emails:" ++ lf ++ String (ascii_of_nat 9)
                  ("usage: python " ++ prog ++ " config_filename [email_content_filename]"))) ;;
      _ <~ emit (Stdout ("To generate and print output without emails:" ++ lf
                  ++ String (ascii_of_nat 9) ("usage: python " ++ prog ++ " -p config_filename"))) ;;
      io_throw (SystemExit 1)
  | Run config_filename should_send_email email_content_filename =>
      content <~ open_read fs config_filename ;;
      config <~ lift (parse_config_file (file_lines content)) ;;
      ar <~ lift (assign_with_retries config r) ;;
      let assignments := ar.1 in
      let assignment_uuid := Uuid.assignment_uuid uuid_bytes in
      if should_send_email then
        email_content <~ get_email_content fs email_content_filename ;;
        send_assignment_emails assignment_uuid (items_of assignments) config email_content
      else
        let '(out, res) :=
          pretty_print_assignments assignment_uuid (items_of assignments) config in
        _ <~ (fun w => (Return tt, {| trace := trace w ++ map Stdout out;
                                      replies := replies w |})) ;;
        lift res
  end.

End Main.

End Main.

(* ================================================================= *)
(** ** Writing a configuration file *)

(** The inverse direction of [parse_config_file]: a configuration file
    in the format of the script's docstring, written for a registry. *)
Module Render.






End Render.

(* ================================================================= *)
(** ** Auxiliary predicates of the proofs *)

Module Aux.

(** [str.strip] on the list of characters. *)
Definition strip_l (l : list ascii) : list ascii :=
  rev (PyStr.drop_space (rev (PyStr.drop_space l))).



(** The invariant of the parsing loop: the participant table, once
    created, is non-empty and its exclusion sets are within
    [all_exclusion_ids]. *)
Definition reg_closed (all : gset string) (cd : cfg_dict) : Prop :=
  match cd_participants cd with
  | None => True
  | Some pd => pd ≠ ∅ ∧ map_Forall (λ _ p, exclusion_ids p ⊆ all) pd
  end.


(** [m] only appends events satisfying [P] to the trace. *)
Definition appends {A} (m : IO A) (P : event → Prop) : Prop :=
  ∀ w o w', m w = (o, w') → ∃ evs, trace w' = app (trace w) evs ∧ Forall P evs.

End Aux.

Import Aux.

(* ================================================================= *)
(** ** Example inputs *)

Module Examples.

Definition nl : string := String (ascii_of_nat 10) EmptyString.

(** The example configuration of the script's docstring. *)
Definition docstring_lines : list string :=
  [ "administrator@gmail.com" ++ nl;
    "myGmailGeneratedAppPassword" ++ nl;
    "person_id1, name1, abcd@email.com, (person_id2; person_id3)" ++ nl;
    "person_id2, name2, abce@email.com, (person_id1; person_id3)" ++ nl;
    "person_id3, name3, abcf@email.com, (person_id1; person_id2)" ++ nl;
    "person_id4, name4, abcg@email.com, (person_id5)" ++ nl;
    "person_id5, name5, abch@email.com, (person_id4)" ++ nl;
    "person_id6, name6, abci@email.com, ()" ++ nl ].

(** A lone participant. *)
Definition single_lines : list string :=
  [ "administrator@gmail.com" ++ nl;
    "myGmailGeneratedAppPassword" ++ nl;
    "person_id1, name1, abcd@email.com, ()" ++ nl ].

(** Two participants and no participant line. *)
Definition admin_only_lines : list string :=
  [ "administrator@gmail.com" ++ nl; "myGmailGeneratedAppPassword" ++ nl; nl ].

(** The configuration the docstring example parses to. *)
Definition docstring_config : Config :=
  match parse_config_file docstring_lines with
  | Ok c => c
  | Raise _ => {| administrator_email := ""; administrator_email_password := "";
                  participants := ∅ |}
  end.

(** A participant that excludes everybody. *)
Definition blocked_lines : list string :=
  [ "administrator@gmail.com" ++ nl;
    "myGmailGeneratedAppPassword" ++ nl;
    "a, A, a@email.com, (b)" ++ nl;
    "b, B, b@email.com, ()" ++ nl ].

Definition config_of (lines : list string) : Config :=
  match parse_config_file lines with
  | Ok c => c
  | Raise _ => {| administrator_email := ""; administrator_email_password := "";
                  participants := ∅ |}
  end.

Definition blocked_config : Config := config_of blocked_lines.

Definition blocked_pdata : participant :=
  default {| name := ""; email := ""; exclusion_ids := ∅ |}
    (participants blocked_config !! "a").

Definition single_config : Config := config_of single_lines.

(** The docstring's first two participants as Python objects: [config]
    at location 0, its participant table at 1, the records and their
    exclusion sets above. *)
Definition example_heap : Heap.state :=
  {| Heap.mem :=
       {[ 0 := Heap.ODict {[ PARTICIPANTS_KEY := Heap.PRef 1 ]};
          1 := Heap.ODict {[ "person_id1" := Heap.PRef 2; "person_id2" := Heap.PRef 4 ]};
          2 := Heap.ODict {[ "name" := Heap.PStr "name1";
                             "email" := Heap.PStr "abcd@email.com";
                             "exclusion_ids" := Heap.PRef 3 ]};
          3 := Heap.OSet {[ "person_id1" ]};
          4 := Heap.ODict {[ "name" := Heap.PStr "name2";
                             "email" := Heap.PStr "abce@email.com";
                             "exclusion_ids" := Heap.PRef 5 ]};
          5 := Heap.OSet {[ "person_id2" ]} ]};
     Heap.next := 6;
     Heap.rnd := fun _ => 0 |}.

(** Random sources. *)
Definition zeros : rstate := fun _ => 0.
Definition counting : rstate := fun k => k.

(** A valid assignment of the docstring example, its file, file systems,
    SMTP servers that accept or refuse every command, an empty registry
    and the bytes of an identifier. *)
Definition docstring_assignment : assignment :=
  {[ "person_id1" := "person_id4"; "person_id2" := "person_id5";
     "person_id3" := "person_id6"; "person_id4" := "person_id1";
     "person_id5" := "person_id2"; "person_id6" := "person_id3" ]}.
Definition docstring_file : string := foldr String.append "" docstring_lines.
Definition example_files : Main.files :=
  fun fn => if String.eqb fn "config.txt" then Some docstring_file
            else if String.eqb fn "content.txt" then Some "Budget: 20 dollars." else None.
Definition no_files : Main.files := fun _ => None.
Definition server_up : world := {| trace := []; replies := fun _ => true |}.
Definition empty_config : Config :=
  {| administrator_email := "administrator@gmail.com";
     administrator_email_password := "myGmailGeneratedAppPassword";
     participants := ∅ |}.
Definition uuid_bytes : list Byte.byte := repeat Byte.x00 16.

End Examples.

(* ================================================================= *)
(** * Properties *)

Open Scope nat_scope.

(** ** The random source *)

Lemma swap_perm {A} (x : list A) i j : swap x i j ≡ₚ x.
Proof.
  unfold swap. destruct (x !! i) eqn:Hi, (x !! j) eqn:Hj; try done.
  by apply Permutation_insert_swap.
Qed.

Lemma shuffle_loop_perm {A} i (x : list A) r : (shuffle_loop i x r).1 ≡ₚ x.
Proof.
  revert x r; induction i as [|i IH]; intros x r; simpl; [done|].
  by rewrite IH, swap_perm.
Qed.

Lemma shuffle_perm {A} (x : list A) r : (shuffle x r).1 ≡ₚ x.
Proof. apply shuffle_loop_perm. Qed.

Lemma choice_elem {A} (l : list A) r a r' :
  choice l r = Ok (a, r') → a ∈ l.
Proof.
  unfold choice. destruct l as [|x l]; [discriminate|].
  destruct (randbelow _ _) as [i r1].
  destruct ((x :: l) !! i) eqn:E; [|discriminate].
  intros [= -> _]. by eapply list_elem_of_lookup_2.
Qed.

Lemma keys_elem {A} (m : gmap string A) g : g ∈ (map_to_list m).*1 ↔ g ∈ dom m.
Proof.
  rewrite list_elem_of_fmap, elem_of_dom. split.
  - intros [[k v] [-> Hin]]. apply elem_of_map_to_list in Hin. simpl. eauto.
  - intros [v Hv]. exists (g, v). split; [done|]. by apply elem_of_map_to_list.
Qed.

(** ** One attempt: the greedy loop *)

Section AssignLoop.
Variable participant_data : gmap string participant.

(** Each step gives the giver a receiver outside its exclusion set. *)
Lemma assign_loop_excluded order rem (asg : assignment) r a r' :
  assign_loop participant_data order rem asg r = Ok (Some a, r') →
  (∀ g v, asg !! g = Some v →
     ∃ p, participant_data !! g = Some p ∧ v ∉ exclusion_ids p) →
  ∀ g v, a !! g = Some v →
     ∃ p, participant_data !! g = Some p ∧ v ∉ exclusion_ids p.
Proof.
  revert rem asg r. induction order as [|p order IH]; intros rem asg r Hrun Hinv.
  - simpl in Hrun. injection Hrun as <- _. exact Hinv.
  - simpl in Hrun.
    destruct (participant_data !! p) as [pdata|] eqn:Hp; [|discriminate].
    case_decide; [discriminate|].
    destruct (choice _ r) as [[x r1]|e] eqn:Hc; [|discriminate].
    case_decide; [|discriminate].
    apply (IH _ _ _ Hrun).
    intros g v Hg. destruct (decide (g = p)) as [->|Hne].
    + rewrite lookup_insert_eq in Hg. injection Hg as <-.
      apply choice_elem, elem_of_elements in Hc. exists pdata. set_solver.
    + rewrite lookup_insert_ne in Hg by congruence. eauto.
Qed.

(** The loop hands out every remaining receiver exactly once. *)
Lemma assign_loop_bijective order rem (asg : assignment) r a r' :
  assign_loop participant_data order rem asg r = Ok (Some a, r') →
  NoDup order →
  (∀ g, g ∈ order → asg !! g = None) →
  size rem = length order →
  (∀ g v, asg !! g = Some v → v ∉ rem) →
  (∀ g1 g2 v, asg !! g1 = Some v → asg !! g2 = Some v → g1 = g2) →
  (∀ g, is_Some (a !! g) ↔ is_Some (asg !! g) ∨ g ∈ order) ∧
  (∀ v, (∃ g, a !! g = Some v) ↔ (∃ g, asg !! g = Some v) ∨ v ∈ rem) ∧
  (∀ g1 g2 v, a !! g1 = Some v → a !! g2 = Some v → g1 = g2).
Proof.
  revert rem asg r. induction order as [|p order IH];
    intros rem asg r Hrun Hnd Hfresh Hsize Hdisj Hinj.
  - simpl in Hrun. injection Hrun as <- _.
    simpl in Hsize. apply size_empty_inv in Hsize.
    repeat split; try set_solver; eauto.
  - simpl in Hrun.
    destruct (participant_data !! p) as [pdata|] eqn:Hp; [|discriminate].
    case_decide; [discriminate|].
    destruct (choice _ r) as [[x r1]|e] eqn:Hc; [|discriminate].
    case_decide as Hx; [|discriminate].
    apply NoDup_cons in Hnd as [Hpo Hnd].
    assert (Hpn : asg !! p = None) by (apply Hfresh; set_solver).
    assert (Hxv : ∀ g, asg !! g ≠ Some x) by (intros g Hg; exact (Hdisj g x Hg Hx)).
    destruct (IH _ _ _ Hrun Hnd) as (Hdom & Himg & Hinj') .
    + intros g Hg. rewrite lookup_insert_ne by set_solver. apply Hfresh. set_solver.
    + rewrite size_difference by set_solver. rewrite size_singleton. simpl in Hsize. lia.
    + intros g v Hg. destruct (decide (g = p)) as [->|Hne].
      * rewrite lookup_insert_eq in Hg. injection Hg as <-. set_solver.
      * rewrite lookup_insert_ne in Hg by congruence. specialize (Hdisj _ _ Hg). set_solver.
    + intros g1 g2 v H1 H2.
      destruct (decide (g1 = p)) as [->|Hne1], (decide (g2 = p)) as [->|Hne2]; try done.
      * rewrite lookup_insert_eq in H1. rewrite lookup_insert_ne in H2 by congruence.
        injection H1 as <-. by destruct (Hxv g2).
      * rewrite lookup_insert_eq in H2. rewrite lookup_insert_ne in H1 by congruence.
        injection H2 as <-. by destruct (Hxv g1).
      * rewrite lookup_insert_ne in H1, H2 by congruence. eauto.
    + split; [|split; [|exact Hinj']].
      * intros g. rewrite Hdom. destruct (decide (g = p)) as [->|Hne].
        -- rewrite lookup_insert_eq. split; [intros _; right; set_solver|eauto].
        -- rewrite lookup_insert_ne by congruence. set_solver.
      * intros v. rewrite Himg. split.
        -- intros [[g Hg]|Hv].
           ++ destruct (decide (g = p)) as [->|Hne].
              ** rewrite lookup_insert_eq in Hg. injection Hg as <-. by right.
              ** rewrite lookup_insert_ne in Hg by congruence. eauto.
           ++ right. set_solver.
        -- intros [[g Hg]|Hv].
           ++ left. exists g. rewrite lookup_insert_ne; [done|]. intros ->. congruence.
           ++ destruct (decide (v = x)) as [->|Hne].
              ** left. exists p. by rewrite lookup_insert_eq.
              ** right. set_solver.
Qed.

End AssignLoop.

Lemma choice_ok {A} (l : list A) r : l ≠ [] → ∃ a r', choice l r = Ok (a, r').
Proof.
  intros Hl. unfold choice. destruct l as [|x l]; [done|].
  unfold randbelow.
  assert (Hb : r 0 mod length (x :: l) < length (x :: l))
    by (apply Nat.mod_upper_bound; simpl; lia).
  destruct (lookup_lt_is_Some_2 (x :: l) _ Hb) as [y Hy].
  cbv beta iota zeta. rewrite Hy. eauto.
Qed.

Section AssignLoopTotal.
Variable participant_data : gmap string participant.

(** With givers from the registry, the loop never raises. *)
Lemma assign_loop_no_raise order rem (asg : assignment) r :
  (∀ g, g ∈ order → g ∈ dom participant_data) →
  ∃ o r', assign_loop participant_data order rem asg r = Ok (o, r').
Proof.
  revert rem asg r. induction order as [|p order IH]; intros rem asg r Hin; simpl; [eauto|].
  assert (Hp : p ∈ dom participant_data) by (apply Hin; set_solver).
  apply elem_of_dom in Hp as [pdata ->].
  case_decide as Hav; [eauto|].
  destruct (choice_ok (elements (rem ∖ exclusion_ids pdata)) r) as (x & r1 & Hc).
  { intros He. apply Hav. apply elements_empty_iff in He. set_solver. }
  rewrite Hc. pose proof (choice_elem _ _ _ _ Hc) as Hx. apply elem_of_elements in Hx.
  rewrite decide_True by set_solver.
  apply IH. intros g Hg. apply Hin. set_solver.
Qed.

(** A giver whose exclusion set covers every remaining receiver makes
    the loop return [None] when its turn comes. *)
Lemma assign_loop_blocked order rem (asg : assignment) r p pdata :
  (∀ g, g ∈ order → g ∈ dom participant_data) →
  participant_data !! p = Some pdata →
  rem ⊆ exclusion_ids pdata →
  p ∈ order →
  ∃ r', assign_loop participant_data order rem asg r = Ok (None, r').
Proof.
  intros Hin Hp Hrem. revert rem asg r Hrem.
  induction order as [|q order IH]; intros rem asg r Hrem Hpo; [set_solver|]. simpl.
  assert (Hq : q ∈ dom participant_data) by (apply Hin; set_solver).
  apply elem_of_dom in Hq as [qdata Hq]. rewrite Hq.
  case_decide as Hav; [eauto|].
  destruct (decide (q = p)) as [->|Hne].
  { rewrite Hp in Hq. injection Hq as <-. exfalso. apply Hav. set_solver. }
  destruct (choice_ok (elements (rem ∖ exclusion_ids qdata)) r) as (x & r1 & Hc).
  { intros He. apply Hav. apply elements_empty_iff in He. set_solver. }
  rewrite Hc. pose proof (choice_elem _ _ _ _ Hc) as Hx. apply elem_of_elements in Hx.
  rewrite decide_True by set_solver.
  apply IH; [intros g Hg; apply Hin; set_solver | set_solver | set_solver].
Qed.

End AssignLoopTotal.

Lemma get_assignments_no_raise (config : Config) r :
  ∃ o r', get_assignments config r = Ok (o, r').
Proof.
  unfold get_assignments.
  pose proof (shuffle_perm ((map_to_list (participants config)).*1) r) as Hperm.
  destruct (shuffle _ r) as [order r1]. simpl in Hperm.
  apply assign_loop_no_raise. intros g Hg. rewrite Hperm in Hg. by apply keys_elem.
Qed.

(** A successful attempt is a bijection on the participant ids. *)
Lemma get_assignments_some_bijective (config : Config) r r' (a : assignment) :
  get_assignments config r = Ok (Some a, r') →
  dom a = dom (participants config) ∧
  (∀ v, v ∈ dom (participants config) ↔ ∃ g, a !! g = Some v) ∧
  (∀ g1 g2 v, a !! g1 = Some v → a !! g2 = Some v → g1 = g2).
Proof.
  unfold get_assignments.
  pose proof (shuffle_perm ((map_to_list (participants config)).*1) r) as Hperm.
  destruct (shuffle _ r) as [order r1]. simpl in Hperm. intros Hrun.
  edestruct (assign_loop_bijective _ _ _ _ _ _ _ Hrun) as (Hdom & Himg & Hinj).
  - rewrite Hperm. apply NoDup_fst_map_to_list.
  - intros; apply lookup_empty.
  - rewrite Hperm, length_fmap, length_map_to_list, size_dom. done.
  - intros g v H. by rewrite lookup_empty in H.
  - intros ? ? ? H. by rewrite lookup_empty in H.
  - split; [|split; [|done]].
    + apply set_eq. intros g. rewrite elem_of_dom, Hdom, <- keys_elem, <- Hperm.
      rewrite lookup_empty. split; [intros [[? H]|H]; [done|done]|intros H; by right].
    + intros v. rewrite Himg. split; [by right|].
      intros [[g H]|H]; [by rewrite lookup_empty in H|done].
Qed.

Lemma get_assignments_blocked (config : Config) r p pdata :
  participants config !! p = Some pdata →
  dom (participants config) ⊆ exclusion_ids pdata →
  ∃ r', get_assignments config r = Ok (None, r').
Proof.
  intros Hp Hex. unfold get_assignments.
  pose proof (shuffle_perm ((map_to_list (participants config)).*1) r) as Hperm.
  destruct (shuffle _ r) as [order r1]. simpl in Hperm.
  eapply assign_loop_blocked; [|exact Hp|exact Hex|].
  - intros g Hg. rewrite Hperm in Hg. by apply keys_elem.
  - rewrite Hperm. apply keys_elem, elem_of_dom. eauto.
Qed.

(** ** The configuration file *)

Lemma parse_participant_line_self line cd all cd' all' :
  parse_participant_line line cd all = Ok (cd', all') →
  (∀ pd, cd_participants cd = Some pd →
     ∀ p x, pd !! p = Some x → p ∈ exclusion_ids x) →
  ∀ pd, cd_participants cd' = Some pd →
     ∀ p x, pd !! p = Some x → p ∈ exclusion_ids x.
Proof.
  unfold parse_participant_line. intros Hrun Hinv.
  destruct (String.eqb (PyStr.strip line) "").
  { injection Hrun as <- _. exact Hinv. }
  destruct (map PyStr.strip (PyStr.split "," line)) as [|pid [|nm [|em [|ax [|]]]]];
    try discriminate.
  destruct (bad_exclusion_format ax); [discriminate|].
  case_decide; [discriminate|].
  injection Hrun as <- _. simpl. intros pd [= <-] p x Hx.
  destruct (decide (p = pid)) as [->|Hne].
  - rewrite lookup_insert_eq in Hx. injection Hx as <-. simpl.
    unfold parse_exclusion_ids. set_solver.
  - rewrite lookup_insert_ne in Hx by congruence.
    destruct (cd_participants cd) as [pd0|] eqn:Hpd; simpl in Hx.
    + eapply Hinv; eauto.
    + by rewrite lookup_empty in Hx.
Qed.

Lemma parse_lines_self n lines cd all cd' all' :
  parse_lines n lines cd all = Ok (cd', all') →
  (∀ pd, cd_participants cd = Some pd →
     ∀ p x, pd !! p = Some x → p ∈ exclusion_ids x) →
  ∀ pd, cd_participants cd' = Some pd →
     ∀ p x, pd !! p = Some x → p ∈ exclusion_ids x.
Proof.
  revert n cd all. induction lines as [|line lines IH]; intros n cd all Hrun Hinv; simpl in Hrun.
  - injection Hrun as <- _. exact Hinv.
  - destruct n as [|[|n]].
    + exact (IH _ _ _ Hrun Hinv).
    + exact (IH _ _ _ Hrun Hinv).
    + destruct (parse_participant_line line cd all) as [[cd1 all1]|e] eqn:E; [|discriminate].
      eapply IH; [exact Hrun|]. eapply parse_participant_line_self; eauto.
Qed.

(** [parse_config_file] puts every participant's own id in its exclusion set. *)
Lemma parse_config_file_self lines config :
  parse_config_file lines = Ok config →
  ∀ p x, participants config !! p = Some x → p ∈ exclusion_ids x.
Proof.
  unfold parse_config_file.
  destruct (parse_lines 0 lines cfg_empty ∅) as [[cd all]|e] eqn:E; [|discriminate].
  intros Hc. pose proof (parse_lines_self _ _ _ _ _ _ E) as Hse.
  unfold check_config in Hc. destruct (cd_participants cd) as [pd|] eqn:Hpd; [|discriminate].
  case_decide; [discriminate|].
  destruct (cd_administrator_email cd); [|discriminate].
  destruct (cd_administrator_email_password cd); [|discriminate].
  injection Hc as <-. simpl. apply Hse; [|done]. intros ? Hn. discriminate.
Qed.

(** ** The retry loop *)

(** An attempt on a non-empty registry either fails or returns a
    non-empty, hence truthy, dictionary. *)
Lemma get_assignments_outcome (config : Config) r :
  participants config ≠ ∅ →
  ∃ r', get_assignments config r = Ok (None, r') ∨
        ∃ a, a ≠ ∅ ∧ get_assignments config r = Ok (Some a, r').
Proof.
  intros Hne. destruct (get_assignments_no_raise config r) as ([a|] & r' & E).
  - exists r'. right. exists a. split; [|done].
    intros ->. apply Hne. destruct (get_assignments_some_bijective _ _ _ _ E) as [Hdom _].
    apply dom_empty_inv_L. by rewrite <- Hdom, dom_empty_L.
  - eauto.
Qed.

(** More fuel than [retry_fuel] does not change the loop. *)
Lemma retry_loop_fuel_mono (config : Config) (fuel : nat) st (fuel' : nat) :
  (S MAX_ASSIGNMENT_ATTEMPTS - attempts st ≤ fuel)%nat → (fuel ≤ fuel')%nat →
  retry_loop fuel' config st = retry_loop fuel config st.
Proof.
  revert st fuel'. induction fuel as [|fuel IH]; intros st fuel' Hf Hle.
  - destruct fuel' as [|fuel']; [done|]. simpl.
    rewrite (proj2 (Nat.leb_gt _ _)) by lia. done.
  - destruct fuel' as [|fuel']; [lia|]. simpl.
    destruct (Nat.leb (attempts st) MAX_ASSIGNMENT_ATTEMPTS && negb (truthy (assignments st)))
      eqn:Hc; [|done].
    apply andb_true_iff in Hc as [Hc _]. apply Nat.leb_le in Hc.
    destruct (get_assignments config (rng st)) as [[a r']|e]; [|done].
    apply IH; simpl; lia.
Qed.

Lemma retry_loop_fuel_enough (config : Config) r (fuel : nat) :
  (retry_fuel ≤ fuel)%nat →
  retry_loop fuel config (loop_init r) = retry_loop retry_fuel config (loop_init r).
Proof. intros H. apply retry_loop_fuel_mono; [simpl; unfold retry_fuel; lia|done]. Qed.

(** When every attempt fails, the loop calls [get_assignments] four
    times and the script raises with [attempts=4]. *)
Lemma retry_loop_all_fail (config : Config) r :
  (∀ r, ∃ r', get_assignments config r = Ok (None, r')) →
  ∃ st, retry_loop retry_fuel config (loop_init r) = Ok st ∧
    calls st = [None; None; None; None] ∧ attempts st = 4 ∧ assignments st = None ∧
    assign_with_retries config r = Raise (Exception (AssignmentInfeasible 4)).
Proof.
  intros Hfail.
  destruct (Hfail r) as [r1 E1]. destruct (Hfail r1) as [r2 E2].
  destruct (Hfail r2) as [r3 E3]. destruct (Hfail r3) as [r4 E4].
  assert (Hl : retry_loop retry_fuel config (loop_init r) =
    Ok {| attempts := 4; assignments := None; rng := r4;
          calls := [None; None; None; None] |}).
  { unfold retry_fuel. cbn - [get_assignments].
    rewrite E1. cbn - [get_assignments]. rewrite E2. cbn - [get_assignments].
    rewrite E3. cbn - [get_assignments]. rewrite E4. reflexivity. }
  eexists. split; [exact Hl|]. do 3 (split; [reflexivity|]).
  unfold assign_with_retries. rewrite Hl. reflexivity.
Qed.

(** ** Parsing: blank lines, administrator fields, raised messages *)

Lemma parse_participant_line_blank line cd all :
  PyStr.strip line = "" → parse_participant_line line cd all = Ok (cd, all).
Proof. intros Hl. unfold parse_participant_line. by rewrite Hl. Qed.

Lemma parse_lines_blank (n : nat) lines cd all :
  (2 ≤ n)%nat → Forall (λ l, PyStr.strip l = "") lines →
  parse_lines n lines cd all = Ok (cd, all).
Proof.
  intros Hn Hb. revert n cd all Hn. induction Hb as [|l lines Hl Hb IH]; intros n cd all Hn; [done|].
  destruct n as [|[|n]]; [lia|lia|]. simpl.
  rewrite parse_participant_line_blank by exact Hl. apply IH. lia.
Qed.

Lemma parse_participant_line_admin line cd all cd' all' :
  parse_participant_line line cd all = Ok (cd', all') →
  cd_administrator_email cd' = cd_administrator_email cd ∧
  cd_administrator_email_password cd' = cd_administrator_email_password cd.
Proof.
  unfold parse_participant_line. intros Hrun.
  destruct (String.eqb (PyStr.strip line) "").
  { by injection Hrun as <- _. }
  destruct (map PyStr.strip (PyStr.split "," line)) as [|pid [|nm [|em [|ax [|]]]]];
    try discriminate.
  destruct (bad_exclusion_format ax); [discriminate|].
  case_decide; [discriminate|]. by injection Hrun as <- _.
Qed.

Lemma parse_lines_admin (n : nat) lines cd all cd' all' :
  (2 ≤ n)%nat → parse_lines n lines cd all = Ok (cd', all') →
  cd_administrator_email cd' = cd_administrator_email cd ∧
  cd_administrator_email_password cd' = cd_administrator_email_password cd.
Proof.
  revert n cd all. induction lines as [|line lines IH]; intros n cd all Hn Hrun; simpl in Hrun.
  - by injection Hrun as <- _.
  - destruct n as [|[|n]]; [lia|lia|].
    destruct (parse_participant_line line cd all) as [[cd1 all1]|e] eqn:E; [|discriminate].
    destruct (parse_participant_line_admin _ _ _ _ _ E) as [H1 H2].
    destruct (IH (S (S (S n))) cd1 all1 ltac:(lia) Hrun) as [H3 H4]. split; congruence.
Qed.

Lemma parse_participant_line_msg line cd all :
  parse_participant_line line cd all ≠ Raise (Exception MissingParticipants).
Proof.
  unfold parse_participant_line.
  destruct (String.eqb (PyStr.strip line) ""); [discriminate|].
  destruct (map PyStr.strip (PyStr.split "," line)) as [|pid [|nm [|em [|ax [|]]]]];
    try discriminate.
  destruct (bad_exclusion_format ax); [discriminate|].
  case_decide; discriminate.
Qed.

Lemma parse_lines_msg (n : nat) lines cd all :
  parse_lines n lines cd all ≠ Raise (Exception MissingParticipants).
Proof.
  revert n cd all. induction lines as [|line lines IH]; intros n cd all; simpl; [discriminate|].
  destruct n as [|[|n]]; [apply IH|apply IH|].
  destruct (parse_participant_line line cd all) as [[cd1 all1]|e] eqn:E; [apply IH|].
  intros [= ->]. by apply (parse_participant_line_msg line cd all).
Qed.

(** ** The identifier *)

Lemma string_length_of_list (l : list ascii) :
  String.length (string_of_list_ascii l) = length l.
Proof. induction l as [|c l IH]; simpl; congruence. Qed.

Lemma int_from_bytes_nonneg (b : list Byte.byte) : (0 <= Uuid.int_from_bytes b)%Z.
Proof.
  unfold Uuid.int_from_bytes.
  assert (H : ∀ acc, (0 <= acc)%Z →
    (0 <= fold_left (fun acc x => acc * 256 + Z.of_N (Byte.to_N x))%Z b acc)%Z).
  { induction b as [|x b IH]; intros acc Hacc; simpl; [done|]. apply IH. lia. }
  apply H. lia.
Qed.

Lemma uuid4_int_nonneg (b : list Byte.byte) : (0 <= Uuid.uuid4_int b)%Z.
Proof.
  unfold Uuid.uuid4_int.
  pose proof (int_from_bytes_nonneg b).
  apply Z.lor_nonneg. split; [|apply Z.shiftl_nonneg; lia].
  apply Z.land_nonneg. left.
  apply Z.lor_nonneg. split; [|apply Z.shiftl_nonneg; lia].
  apply Z.land_nonneg. by left.
Qed.

Lemma hex_digit_hex (d : Z) : Uuid.is_lower_hex (Uuid.hex_digit d) = true.
Proof. unfold Uuid.hex_digit. repeat case_match; reflexivity. Qed.

Lemma hex_digits_hex (fuel : nat) (n : Z) (acc : list ascii) :
  Forall (λ c, Uuid.is_lower_hex c = true) acc →
  Forall (λ c, Uuid.is_lower_hex c = true) (Uuid.hex_digits fuel n acc).
Proof.
  revert n acc. induction fuel as [|fuel IH]; intros n acc Hacc; simpl; [done|].
  destruct (Z.eqb (n / 16) 0).
  - constructor; [apply hex_digit_hex|done].
  - apply IH. constructor; [apply hex_digit_hex|done].
Qed.

Lemma zero_pad_hex (w : nat) (l : list ascii) :
  Forall (λ c, Uuid.is_lower_hex c = true) l →
  Forall (λ c, Uuid.is_lower_hex c = true) (Uuid.zero_pad w l) ∧
  (w ≤ length (Uuid.zero_pad w l))%nat.
Proof.
  intros Hl. unfold Uuid.zero_pad. split.
  - apply Forall_app. split; [|done].
    apply Forall_forall. intros c Hc. apply list_elem_of_In, repeat_spec in Hc. by subst.
  - rewrite length_app, repeat_length. lia.
Qed.

(** ** The heap: what [get_assignments] writes *)

Section Keeps.
Import Heap.
Variable base : loc.

Lemma keeps_weaken {A} (m : M A) (Q Q' : A → Prop) :
  keeps base m Q → (∀ a, Q a → Q' a) → keeps base m Q'.
Proof.
  intros Hm HQ s Hs. destruct (Hm s Hs) as (H1 & H2 & H3). eauto.
Qed.

Lemma keeps_ret {A} (a : A) (Q : A → Prop) : Q a → keeps base (ret a) Q.
Proof. intros HQ s Hs. simpl. split; [done|split; [done|]]. by intros ? [= <-]. Qed.

Lemma keeps_throw {A} e (Q : A → Prop) : keeps base (throw e) Q.
Proof. intros s Hs. simpl. split; [done|split; [done|]]. discriminate. Qed.

Lemma keeps_bind {A B} (m : M A) (k : A → M B) (Q : A → Prop) (R : B → Prop) :
  keeps base m Q → (∀ a, Q a → keeps base (k a) R) → keeps base (bind m k) R.
Proof.
  intros Hm Hk s Hs. unfold bind.
  destruct (Hm s Hs) as (H1 & H2 & H3).
  destruct (m s) as [[a|e] s'] eqn:E; simpl in *.
  - destruct (Hk a (H3 a eq_refl) s' H1) as (K1 & K2 & K3).
    split; [done|split; [|done]]. intros l Hl. rewrite K2 by done. auto.
  - split; [done|split; [done|]]. discriminate.
Qed.

Lemma keeps_read l : keeps base (read l) (λ _, True).
Proof. intros s Hs. unfold read. destruct (mem s !! l); simpl; done. Qed.

Lemma keeps_write l o : base ≤ l → keeps base (write l o) (λ _, True).
Proof.
  intros Hl s Hs. simpl. split; [done|split; [|done]].
  intros l' Hl'. apply lookup_insert_ne. lia.
Qed.

Lemma keeps_alloc o : keeps base (alloc o) (λ l, base ≤ l).
Proof.
  intros s Hs. simpl. split; [lia|split].
  - intros l' Hl'. apply lookup_insert_ne. lia.
  - intros a [= <-]. done.
Qed.

Lemma keeps_draw {A} (f : rstate → A * rstate) : keeps base (draw f) (λ _, True).
Proof. intros s Hs. unfold draw. destruct (f (rnd s)). simpl. done. Qed.

Lemma keeps_draw_res {A} (f : rstate → res (A * rstate)) : keeps base (draw_res f) (λ _, True).
Proof. intros s Hs. unfold draw_res. destruct (f (rnd s)) as [[a r']|e]; simpl; done. Qed.

End Keeps.

Create HintDb keeps.
#[local] Hint Resolve keeps_ret keeps_throw keeps_read keeps_write keeps_alloc
  keeps_draw keeps_draw_res : keeps.

(** Run the program logic through a chain of binds and matches. *)
Ltac keeps_step :=
  lazymatch goal with
  | |- Heap.keeps ?b (Heap.bind (Heap.alloc _) _) _ =>
      apply (keeps_bind b _ _ (λ l, b ≤ l)); [apply keeps_alloc|intros ? ?]
  | |- Heap.keeps ?b (Heap.bind _ _) _ =>
      apply (keeps_bind b _ _ (λ _, True)); [|intros ? _]
  | |- Heap.keeps _ (match ?x with _ => _ end) _ => destruct x
  | |- Heap.keeps _ (if ?b then _ else _) _ => destruct b
  | |- Heap.keeps _ (Heap.ret _) _ => apply keeps_ret; exact I
  | |- _ => solve [eauto with keeps; lia]
  end.

Section KeepsGet.
Import Heap.
Variable base : loc.

Lemma keeps_dict_getitem l k : keeps base (dict_getitem l k) (λ _, True).
Proof. unfold dict_getitem. repeat keeps_step. Qed.

Lemma keeps_dict_setitem l k v : base ≤ l → keeps base (dict_setitem l k v) (λ _, True).
Proof. intros Hl. unfold dict_setitem. repeat keeps_step. Qed.

Lemma keeps_dict_keys l : keeps base (dict_keys l) (λ _, True).
Proof. unfold dict_keys. repeat keeps_step. Qed.

Lemma keeps_set_contents l : keeps base (set_contents l) (λ _, True).
Proof. unfold set_contents. repeat keeps_step. Qed.

Lemma keeps_list_contents l : keeps base (list_contents l) (λ _, True).
Proof. unfold list_contents. repeat keeps_step. Qed.

Lemma keeps_as_ref v : keeps base (as_ref v) (λ _, True).
Proof. unfold as_ref. repeat keeps_step. Qed.

Lemma keeps_set_difference a b : keeps base (set_difference a b) (λ _, True).
Proof.
  unfold set_difference.
  eapply keeps_bind; [apply keeps_set_contents|intros ? _].
  eapply keeps_bind; [apply keeps_set_contents|intros ? _].
  eapply keeps_weaken; [apply keeps_alloc|done].
Qed.

Lemma keeps_set_remove l x : base ≤ l → keeps base (set_remove l x) (λ _, True).
Proof. intros Hl. unfold set_remove. repeat keeps_step. Qed.

Lemma keeps_list_shuffle l : base ≤ l → keeps base (list_shuffle l) (λ _, True).
Proof. intros Hl. unfold list_shuffle. repeat keeps_step. Qed.

End KeepsGet.

#[local] Hint Resolve keeps_dict_getitem keeps_dict_setitem keeps_dict_keys
  keeps_set_contents keeps_list_contents keeps_as_ref keeps_set_difference
  keeps_set_remove keeps_list_shuffle : keeps.

(** The loop writes only the set [remaining_participants] and the
    dictionary [assignments], and allocates the rest. *)
Lemma keeps_assign_loop base pd rem asg order :
  base ≤ rem → base ≤ asg →
  Heap.keeps base (Heap.assign_loop pd rem asg order) (λ _, True).
Proof.
  intros Hrem Hasg. induction order as [|p order IH]; simpl; [by apply keeps_ret|].
  repeat keeps_step; auto.
Qed.

Lemma keeps_get_assignments base config :
  Heap.keeps base (Heap.get_assignments config) (λ _, True).
Proof.
  unfold Heap.get_assignments.
  eapply keeps_bind; [apply keeps_dict_getitem|intros ? _].
  eapply keeps_bind; [apply keeps_as_ref|intros pd _].
  eapply keeps_bind; [apply keeps_dict_keys|intros ? _].
  eapply keeps_bind; [apply keeps_alloc|intros lst Hlst].
  eapply keeps_bind; [apply keeps_list_shuffle; exact Hlst|intros ? _].
  eapply keeps_bind; [apply keeps_dict_keys|intros ? _].
  eapply keeps_bind; [apply keeps_alloc|intros rem Hrem].
  eapply keeps_bind; [apply keeps_alloc|intros asg Hasg].
  eapply keeps_bind; [apply keeps_list_contents|intros order _].
  by apply keeps_assign_loop.
Qed.

Lemma decode_participant_mono (m m' : gmap Heap.loc Heap.obj) v x :
  (∀ l o, m !! l = Some o → m' !! l = Some o) →
  Heap.decode_participant m v = Some x → Heap.decode_participant m' v = Some x.
Proof.
  intros Hsub. unfold Heap.decode_participant.
  destruct v as [| |l]; try discriminate.
  destruct (m !! l) as [o|] eqn:Hl; [|discriminate]. rewrite (Hsub _ _ Hl).
  destruct o as [| |d]; try discriminate.
  destruct (d !! "name") as [[]|], (d !! "email") as [[]|],
    (d !! "exclusion_ids") as [[| |xl]|]; try discriminate.
  destruct (m !! xl) as [o'|] eqn:Hx; [|discriminate]. by rewrite (Hsub _ _ Hx).
Qed.

Lemma decode_registry_mono (m m' : gmap Heap.loc Heap.obj) config reg :
  (∀ l o, m !! l = Some o → m' !! l = Some o) →
  Heap.decode_registry m config = Some reg → Heap.decode_registry m' config = Some reg.
Proof.
  intros Hsub. unfold Heap.decode_registry.
  destruct (m !! config) as [o|] eqn:Hc; [|discriminate]. rewrite (Hsub _ _ Hc).
  destruct o as [| |d]; try discriminate.
  destruct (d !! PARTICIPANTS_KEY) as [[| |p]|]; try discriminate.
  destruct (m !! p) as [o|] eqn:Hp; [|discriminate]. rewrite (Hsub _ _ Hp).
  destruct o as [| |pd]; try discriminate.
  case_decide as Hdom; [|discriminate]. intros [= <-].
  assert (Heq : omap (Heap.decode_participant m') pd = omap (Heap.decode_participant m) pd).
  { apply map_eq. intros k. rewrite !lookup_omap.
    destruct (pd !! k) as [v|] eqn:Hk; simpl; [|done].
    destruct (Heap.decode_participant m v) as [x|] eqn:Hv.
    - by apply (decode_participant_mono m m').
    - exfalso. assert (Hin : k ∈ dom pd) by (apply elem_of_dom; eauto).
      rewrite <- Hdom in Hin. apply elem_of_dom in Hin as [y Hy].
      rewrite lookup_omap, Hk in Hy. simpl in Hy. congruence. }
  rewrite Heq. by rewrite decide_True.
Qed.


(** ** One attempt against the greedy process of the specification *)

Lemma prepend_app (ds1 ds2 : list nat) (r : rstate) :
  prepend (ds1 ++ ds2)%list r = prepend ds1 (prepend ds2 r).
Proof. induction ds1 as [|d ds1 IH]; simpl; [done|]. by rewrite IH. Qed.

Lemma length_swap {A} (x : list A) i j : length (swap x i j) = length x.
Proof.
  unfold swap. destruct (x !! i), (x !! j); try done. by rewrite !length_insert.
Qed.

Lemma swap_lookup_i {A} (x : list A) i j :
  i < length x → j < length x → swap x i j !! i = x !! j.
Proof.
  intros Hi Hj. unfold swap.
  destruct (lookup_lt_is_Some_2 x i Hi) as [xi Exi]. rewrite Exi.
  destruct (lookup_lt_is_Some_2 x j Hj) as [xj Exj]. rewrite Exj.
  destruct (decide (i = j)) as [->|Hne].
  - rewrite list_lookup_insert_eq by (rewrite length_insert; done). congruence.
  - rewrite list_lookup_insert_ne by done. by rewrite list_lookup_insert_eq.
Qed.

Lemma swap_lookup_other {A} (x : list A) i j k :
  k ≠ i → k ≠ j → swap x i j !! k = x !! k.
Proof.
  intros Hi Hj. unfold swap. destruct (x !! i), (x !! j); try done.
  by rewrite !list_lookup_insert_ne.
Qed.

(** [shuffle_loop i] leaves the positions above [i] in place. *)
Lemma shuffle_loop_above {A} i (x : list A) r k :
  i < k → (shuffle_loop i x r).1 !! k = x !! k.
Proof.
  revert x r. induction i as [|i IH]; intros x r Hk; simpl; [done|].
  pose proof (Nat.mod_upper_bound (r 0) (S (S i)) ltac:(lia)).
  rewrite IH by lia. apply swap_lookup_other; lia.
Qed.

Lemma shuffle_loop_S {A} i (x : list A) r :
  shuffle_loop (S i) x r =
  let '(j, r') := randbelow (S (S i)) r in shuffle_loop i (swap x (S i) j) r'.
Proof. reflexivity. Qed.

Lemma shuffle_loop_draws {A} i (x : list A) ds r :
  draws_in_range i ds = true →
  shuffle_loop i x (prepend ds r) = ((shuffle_loop i x (prepend ds r)).1, r).
Proof.
  revert x ds. induction i as [|i IH]; intros x [|d ds] Hds; try done.
  simpl in Hds. apply andb_prop in Hds as [Hd Hds]. apply Nat.ltb_lt in Hd.
  rewrite shuffle_loop_S. unfold randbelow. cbn [prepend].
  rewrite Nat.mod_small by done. apply (IH _ ds Hds).
Qed.

(** With distinct elements, the final list tells the draws apart. *)
Lemma shuffle_loop_inj {A} i (x : list A) ds1 ds2 r1 r2 :
  NoDup x → i < length x →
  draws_in_range i ds1 = true → draws_in_range i ds2 = true →
  (shuffle_loop i x (prepend ds1 r1)).1 = (shuffle_loop i x (prepend ds2 r2)).1 →
  ds1 = ds2.
Proof.
  revert x ds1 ds2. induction i as [|i IH];
    intros x [|d1 ds1] [|d2 ds2] Hnd Hlen H1 H2 Heq; try done.
  simpl in H1, H2. apply andb_prop in H1 as [Hd1 H1]. apply andb_prop in H2 as [Hd2 H2].
  apply Nat.ltb_lt in Hd1, Hd2.
  rewrite !shuffle_loop_S in Heq. unfold randbelow in Heq. cbn [prepend] in Heq.
  rewrite !Nat.mod_small in Heq by done.
  assert (d1 = d2) as <-.
  { pose proof (f_equal (λ l, l !! S i) Heq) as Hi. simpl in Hi.
    rewrite !shuffle_loop_above, !swap_lookup_i in Hi by lia.
    destruct (lookup_lt_is_Some_2 x d1 ltac:(lia)) as [a Ha].
    eapply NoDup_lookup; [exact Hnd|exact Ha|congruence]. }
  f_equal. eapply (IH (swap x (S i) d1)); [|rewrite length_swap; lia|done|done|exact Heq].
  by rewrite swap_perm.
Qed.

Lemma shuffle_loop_pick {A} i (x y : list A) :
  NoDup x → i < length x → y ≡ₚ x → (∀ k, i < k → y !! k = x !! k) →
  ∃ j, j ≤ i ∧ x !! j = y !! i.
Proof.
  intros Hnd Hlen Hp Hab.
  assert (Hly : i < length y) by (by rewrite (Permutation_length Hp)).
  destruct (lookup_lt_is_Some_2 y i Hly) as [a Ha].
  assert (Hax : a ∈ x) by (rewrite <- Hp; by eapply list_elem_of_lookup_2).
  apply list_elem_of_lookup in Hax as [j Hj].
  destruct (decide (j ≤ i)) as [Hle|Hgt]; [exists j; by rewrite Ha|].
  exfalso. assert (Hndy : NoDup y) by (by rewrite Hp).
  assert (y !! j = Some a) as Hyj by (rewrite Hab by lia; done).
  assert (i = j) by (eapply NoDup_lookup; [exact Hndy|exact Ha|exact Hyj]). lia.
Qed.

(** Every rearrangement that keeps the positions above [i] comes out of
    some in-range draws. *)
Lemma shuffle_loop_onto {A} i (x y : list A) :
  NoDup x → i < length x → y ≡ₚ x → (∀ k, i < k → y !! k = x !! k) →
  ∃ ds, draws_in_range i ds = true ∧ ∀ r, (shuffle_loop i x (prepend ds r)).1 = y.
Proof.
  revert x. induction i as [|i IH]; intros x Hnd Hlen Hp Hab.
  - exists []. split; [done|]. intros r. simpl. apply list_eq. intros [|k].
    + destruct (shuffle_loop_pick 0 x y) as [j [Hj Hx]]; try done.
      assert (j = 0) as -> by lia. done.
    + symmetry. apply Hab. lia.
  - destruct (shuffle_loop_pick (S i) x y) as [j [Hj Hx]]; try done.
    destruct (IH (swap x (S i) j)) as [ds [Hds Hrun]].
    + by rewrite swap_perm.
    + rewrite length_swap. lia.
    + by rewrite swap_perm.
    + intros k Hk. destruct (decide (k = S i)) as [->|Hne].
      * rewrite swap_lookup_i by lia. done.
      * rewrite swap_lookup_other by lia. apply Hab. lia.
    + exists (j :: ds). split.
      * simpl. apply andb_true_intro. split; [apply Nat.ltb_lt; lia|done].
      * intros r. rewrite shuffle_loop_S. unfold randbelow. cbn [prepend].
        rewrite Nat.mod_small by lia. apply Hrun.
Qed.

Lemma shuffle_uniform {A} (x y : list A) :
  NoDup x → y ≡ₚ x →
  exists! ds, draws_in_range (length x - 1) ds = true ∧ ∀ r, shuffle x (prepend ds r) = (y, r).
Proof.
  intros Hnd Hp. unfold shuffle.
  destruct x as [|a x'] eqn:Ex.
  - apply Permutation_nil_r in Hp as ->. exists []. split; [split; [done|intros r; done]|].
    intros ds [Hds _]. destruct ds; done.
  - rewrite <- Ex in *.
    assert (Hlen : length x - 1 < length x) by (subst; simpl; lia).
    destruct (shuffle_loop_onto (length x - 1) x y Hnd Hlen Hp) as [ds [Hds Hrun]].
    { intros k Hk. pose proof (Permutation_length Hp).
      rewrite (lookup_ge_None_2 y k), (lookup_ge_None_2 x k); [done|lia|lia]. }
    exists ds. split.
    + split; [done|]. intros r. rewrite shuffle_loop_draws by done. by rewrite Hrun.
    + intros ds' [Hds' Hrun']. eapply (shuffle_loop_inj _ x ds ds' inhabitant inhabitant);
        [done|done|done|done|].
      rewrite Hrun. by rewrite Hrun'.
Qed.

Lemma choice_draw {A} (l : list A) v ds r a :
  l !! v = Some a → choice l (prepend (v :: ds) r) = Ok (a, prepend ds r).
Proof.
  intros Ha. pose proof (lookup_lt_Some _ _ _ Ha) as Hv.
  destruct l as [|b l]; [done|]. unfold choice, randbelow. cbn [prepend].
  rewrite Nat.mod_small by done. by rewrite Ha.
Qed.

Lemma choice_uniform (available : gset string) receiver :
  receiver ∈ available →
  exists! v, v < size available ∧
        ∀ r, choice (elements available) (prepend [v] r) = Ok (receiver, r).
Proof.
  intros Hin. apply elem_of_elements, list_elem_of_lookup in Hin as [v Hv].
  exists v. split.
  - split; [apply lookup_lt_Some in Hv; exact Hv|]. intros r. by apply choice_draw.
  - intros v' [Hlt Hrun]. specialize (Hrun inhabitant).
    destruct (lookup_lt_is_Some_2 (elements available) v' Hlt) as [b Hb].
    rewrite (choice_draw _ _ [] _ b Hb) in Hrun. injection Hrun as ->.
    eapply NoDup_lookup; [apply (NoDup_elements available)|exact Hv|exact Hb].
Qed.

Section Greedy.
Variable participant_data : gmap string participant.

(** Every run of the loop is a run of the greedy process. *)
Lemma assign_loop_greedy order rem (asg : assignment) r :
  (∀ g, g ∈ order → g ∈ dom participant_data) →
  ∃ out r', assign_loop participant_data order rem asg r = Ok (out, r') ∧
            greedy_attempt participant_data order rem asg out.
Proof.
  revert rem asg r. induction order as [|p order IH]; intros rem asg r Hin.
  { exists (Some asg), r. split; [done|constructor]. }
  assert (Hp : p ∈ dom participant_data) by (apply Hin; set_solver).
  apply elem_of_dom in Hp as [pdata Hp]. cbn [assign_loop]. rewrite Hp.
  case_decide as Hav.
  { exists None, r. split; [done|]. by eapply greedy_stuck. }
  destruct (choice_ok (elements (rem ∖ exclusion_ids pdata)) r) as (x & r1 & Hc).
  { intros He. apply Hav. apply elements_empty_iff in He. set_solver. }
  rewrite Hc. pose proof (choice_elem _ _ _ _ Hc) as Hx. apply elem_of_elements in Hx.
  rewrite decide_True by set_solver.
  destruct (IH (rem ∖ {[x]}) (<[p:=x]> asg) r1) as (out & r' & Hrun & Hg).
  { intros g Hg. apply Hin. set_solver. }
  exists out, r'. split; [done|]. by eapply greedy_pick.
Qed.

(** Every run of the greedy process is a run of the loop on some draws. *)
Lemma greedy_assign_loop order rem (asg : assignment) out :
  greedy_attempt participant_data order rem asg out →
  ∃ ds, ∀ r, assign_loop participant_data order rem asg (prepend ds r) = Ok (out, r).
Proof.
  induction 1 as [rem asg|g order rem asg pdata Hg Hav
                 |g order rem asg pdata x out Hg Hx _ [ds IH]].
  - by exists [].
  - exists []. intros r. cbn [assign_loop]. rewrite Hg. by rewrite decide_True.
  - assert (Hx' := Hx). apply elem_of_elements, list_elem_of_lookup in Hx' as [v Hv].
    exists (v :: ds). intros r. cbn [assign_loop]. rewrite Hg.
    rewrite decide_False by set_solver.
    rewrite (choice_draw _ _ _ _ _ Hv). rewrite decide_True by set_solver. apply IH.
Qed.

End Greedy.

Lemma get_assignments_greedy (config : Config) r :
  ∃ out r', get_assignments config r = Ok (out, r') ∧
    greedy_attempt (participants config) (shuffle ((map_to_list (participants config)).*1) r).1
      (dom (participants config)) ∅ out.
Proof.
  unfold get_assignments.
  pose proof (shuffle_perm ((map_to_list (participants config)).*1) r) as Hperm.
  destruct (shuffle _ r) as [order r1]. simpl in *.
  apply assign_loop_greedy. intros g Hg. rewrite Hperm in Hg. by apply keys_elem.
Qed.

Lemma greedy_get_assignments (config : Config) order out :
  order ≡ₚ (map_to_list (participants config)).*1 →
  greedy_attempt (participants config) order (dom (participants config)) ∅ out →
  ∃ ds, ∀ r, get_assignments config (prepend ds r) = Ok (out, r).
Proof.
  intros Hp Hg.
  destruct (shuffle_uniform ((map_to_list (participants config)).*1) order) as [ds1 [[_ Hs] _]];
    [apply NoDup_fst_map_to_list|done|].
  destruct (greedy_assign_loop _ _ _ _ _ Hg) as [ds2 Hl].
  exists (ds1 ++ ds2)%list. intros r. rewrite prepend_app. unfold get_assignments.
  rewrite Hs. apply Hl.
Qed.

(* ================================================================= *)
(** ** The claims *)

Import Examples.

(** C1: whenever [get_assignments] returns a result (not [None]), its
    givers (the keys) are exactly the participant ids, its receivers (the
    values) are exactly the participant ids, and no receiver appears
    twice; keys of a dictionary are unique by construction.  This holds
    for every registry, whatever its exclusion sets. *)
Theorem get_assignments_bijection (config : Config) (r r' : rstate) (a : assignment) :
  get_assignments config r = Ok (Some a, r') →
  dom a = dom (participants config) ∧
  (∀ v, v ∈ dom (participants config) ↔ ∃ g, a !! g = Some v) ∧
  (∀ g1 g2 v, a !! g1 = Some v → a !! g2 = Some v → g1 = g2).
Proof. apply get_assignments_some_bijective. Qed.

Lemma get_assignments_bijection_witness :
  ∃ a r', get_assignments docstring_config zeros = Ok (Some a, r') ∧
    dom a = dom (participants docstring_config) ∧
    (∀ v, v ∈ dom (participants docstring_config) ↔ ∃ g, a !! g = Some v) ∧
    (∀ g1 g2 v, a !! g1 = Some v → a !! g2 = Some v → g1 = g2).
Proof.
  destruct (get_assignments docstring_config zeros) as [[[a|] r']|e] eqn:E.
  - exists a, r'. split; [reflexivity|]. exact (get_assignments_bijection _ _ _ _ E).
  - vm_compute in E. discriminate.
  - vm_compute in E. discriminate.
Defined.

(** C2: for a registry loaded by [parse_config_file], every successful
    result of [get_assignments] gives each giver a receiver outside the
    giver's exclusion set, and, since the parser puts each id in its own
    exclusion set, maps nobody to themselves. *)
Theorem get_assignments_respects_exclusions (lines : list string) (config : Config)
    (r r' : rstate) (a : assignment) :
  parse_config_file lines = Ok config →
  get_assignments config r = Ok (Some a, r') →
  (∀ g v, a !! g = Some v →
     ∃ p, participants config !! g = Some p ∧ v ∉ exclusion_ids p) ∧
  (∀ p v, a !! p = Some v → v ≠ p).
Proof.
  intros Hparse Hrun.
  assert (Hex : ∀ g v, a !! g = Some v →
            ∃ p, participants config !! g = Some p ∧ v ∉ exclusion_ids p).
  { revert Hrun. unfold get_assignments.
    destruct (shuffle _ r) as [order r1]. intros Hrun.
    eapply assign_loop_excluded; [exact Hrun|].
    intros g v H. by rewrite lookup_empty in H. }
  split; [exact Hex|].
  intros p v Hp ->. destruct (Hex _ _ Hp) as (x & Hx & Hnot).
  apply Hnot. exact (parse_config_file_self _ _ Hparse _ _ Hx).
Qed.

Lemma get_assignments_respects_exclusions_witness :
  ∃ a r', parse_config_file docstring_lines = Ok docstring_config ∧
    get_assignments docstring_config zeros = Ok (Some a, r') ∧
    (∀ g v, a !! g = Some v →
       ∃ p, participants docstring_config !! g = Some p ∧ v ∉ exclusion_ids p) ∧
    (∀ p v, a !! p = Some v → v ≠ p).
Proof.
  assert (Hp : parse_config_file docstring_lines = Ok docstring_config)
    by (vm_compute; reflexivity).
  destruct (get_assignments docstring_config zeros) as [[[a|] r']|e] eqn:E.
  - exists a, r'. split; [exact Hp|]. split; [reflexivity|].
    exact (get_assignments_respects_exclusions _ _ _ _ _ Hp E).
  - vm_compute in E. discriminate.
  - vm_compute in E. discriminate.
Defined.

Ltac retry_step Hne :=
  lazymatch goal with
  | |- context [get_assignments ?c ?r] =>
      let r' := fresh "r" in let E := fresh "E" in
      let a := fresh "a" in let Ha := fresh "Ha" in
      destruct (get_assignments_outcome c r Hne) as (r' & [E|(a & Ha & E)]);
      rewrite E; cbn - [get_assignments];
      try rewrite (bool_decide_false _ Ha); cbn - [get_assignments]
  end.

(** C3: on a registry with at least one participant (as every registry
    [parse_config_file] returns), the loop of [__main__] calls
    [get_assignments] at least once and at most
    [MAX_ASSIGNMENT_ATTEMPTS + 1 = 4] times (1 call and 3 retries); every
    call but the last failed, so no call follows a success; and it stops
    either after a success or after the fourth failure.  Running the
    loop with more fuel gives the same result. *)
Theorem retry_loop_attempt_bound (config : Config) (r : rstate) :
  participants config ≠ ∅ →
  ∃ st, retry_loop retry_fuel config (loop_init r) = Ok st ∧
    (∀ fuel : nat, (retry_fuel ≤ fuel)%nat →
       retry_loop fuel config (loop_init r) = Ok st) ∧
    attempts st = length (calls st) ∧
    (1 ≤ length (calls st) ≤ MAX_ASSIGNMENT_ATTEMPTS + 1)%nat ∧
    MAX_ASSIGNMENT_ATTEMPTS + 1 = 4 ∧
    (∀ i c, calls st !! i = Some c → (S i < length (calls st))%nat → c = None) ∧
    (length (calls st) = MAX_ASSIGNMENT_ATTEMPTS + 1 ∨
     ∃ a, last (calls st) = Some (Some a)).
Proof.
  intros Hne.
  assert (Hst : ∃ st, retry_loop retry_fuel config (loop_init r) = Ok st ∧
    attempts st = length (calls st) ∧
    (1 ≤ length (calls st) ≤ MAX_ASSIGNMENT_ATTEMPTS + 1)%nat ∧
    MAX_ASSIGNMENT_ATTEMPTS + 1 = 4 ∧
    (∀ i c, calls st !! i = Some c → (S i < length (calls st))%nat → c = None) ∧
    (length (calls st) = MAX_ASSIGNMENT_ATTEMPTS + 1 ∨
     ∃ a, last (calls st) = Some (Some a))).
  { unfold retry_fuel. cbn - [get_assignments].
    repeat retry_step Hne;
      (eexists; split; [reflexivity|]; cbn;
       split; [reflexivity|]; split; [lia|]; split; [reflexivity|]; split;
       [ intros i c Hi Hlt; destruct i as [|[|[|[|i]]]]; cbn in *;
         first [congruence | lia]
       | first [left; reflexivity | right; eexists; reflexivity] ]). }
  destruct Hst as (st & Hl & Hrest). exists st. split; [exact Hl|].
  split; [|exact Hrest].
  intros fuel Hf. rewrite retry_loop_fuel_enough by exact Hf. exact Hl.
Qed.

Lemma retry_loop_attempt_bound_witness :
  participants docstring_config ≠ ∅ ∧
  ∃ st, retry_loop retry_fuel docstring_config (loop_init counting) = Ok st ∧
    (∀ fuel : nat, (retry_fuel ≤ fuel)%nat →
       retry_loop fuel docstring_config (loop_init counting) = Ok st) ∧
    attempts st = length (calls st) ∧
    (1 ≤ length (calls st) ≤ MAX_ASSIGNMENT_ATTEMPTS + 1)%nat ∧
    MAX_ASSIGNMENT_ATTEMPTS + 1 = 4 ∧
    (∀ i c, calls st !! i = Some c → (S i < length (calls st))%nat → c = None) ∧
    (length (calls st) = MAX_ASSIGNMENT_ATTEMPTS + 1 ∨
     ∃ a, last (calls st) = Some (Some a)).
Proof.
  assert (Hne : participants docstring_config ≠ ∅) by (intros H; vm_compute in H; discriminate).
  split; [exact Hne|]. exact (retry_loop_attempt_bound docstring_config counting Hne).
Defined.

(** C5: if some participant's exclusion set is the whole participant
    set, every attempt returns [None] whatever the random draws, the loop
    calls [get_assignments] exactly [MAX_ASSIGNMENT_ATTEMPTS + 1 = 4]
    times, and the script raises its infeasibility exception carrying
    [attempts=4]. *)
Theorem infeasible_exhausts_attempts (config : Config) (p : string) (pdata : participant) :
  participants config !! p = Some pdata →
  exclusion_ids pdata = dom (participants config) →
  (∀ r, ∃ r', get_assignments config r = Ok (None, r')) ∧
  (∀ r, ∃ st, retry_loop retry_fuel config (loop_init r) = Ok st ∧
     calls st = [None; None; None; None] ∧
     attempts st = MAX_ASSIGNMENT_ATTEMPTS + 1 ∧
     assign_with_retries config r =
       Raise (Exception (AssignmentInfeasible (MAX_ASSIGNMENT_ATTEMPTS + 1)))).
Proof.
  intros Hp Hex.
  assert (Hfail : ∀ r, ∃ r', get_assignments config r = Ok (None, r')).
  { intros r. eapply get_assignments_blocked; [exact Hp|]. by rewrite Hex. }
  split; [exact Hfail|]. intros r.
  destruct (retry_loop_all_fail config r Hfail) as (st & Hl & Hc & Ha & _ & Hraise).
  exists st. auto.
Qed.

Lemma infeasible_exhausts_attempts_witness :
  participants blocked_config !! "a" = Some blocked_pdata ∧
  exclusion_ids blocked_pdata = dom (participants blocked_config) ∧
  (∀ r, ∃ r', get_assignments blocked_config r = Ok (None, r')) ∧
  (∀ r, ∃ st, retry_loop retry_fuel blocked_config (loop_init r) = Ok st ∧
     calls st = [None; None; None; None] ∧
     attempts st = MAX_ASSIGNMENT_ATTEMPTS + 1 ∧
     assign_with_retries blocked_config r =
       Raise (Exception (AssignmentInfeasible (MAX_ASSIGNMENT_ATTEMPTS + 1)))).
Proof.
  assert (H1 : participants blocked_config !! "a" = Some blocked_pdata)
    by (vm_compute; reflexivity).
  assert (H2 : exclusion_ids blocked_pdata = dom (participants blocked_config))
    by (vm_compute; reflexivity).
  split; [exact H1|]. split; [exact H2|].
  exact (infeasible_exhausts_attempts blocked_config "a" blocked_pdata H1 H2).
Defined.

(** C6: for a registry of exactly one participant (as loaded by
    [parse_config_file], which puts the participant's own id in its
    exclusion set), the sole giver's available set [remaining -
    exclusions] is empty at its turn, every attempt returns [None], and
    the script raises its infeasibility exception after the four
    attempts. *)
Theorem single_participant_infeasible (lines : list string) (config : Config) :
  parse_config_file lines = Ok config →
  size (participants config) = 1 →
  (∃ p pdata, participants config = {[ p := pdata ]} ∧
     dom (participants config) ∖ exclusion_ids pdata = ∅) ∧
  (∀ r, ∃ r', get_assignments config r = Ok (None, r')) ∧
  (∀ r, ∃ st, retry_loop retry_fuel config (loop_init r) = Ok st ∧
     calls st = [None; None; None; None] ∧
     attempts st = MAX_ASSIGNMENT_ATTEMPTS + 1 ∧
     assign_with_retries config r =
       Raise (Exception (AssignmentInfeasible (MAX_ASSIGNMENT_ATTEMPTS + 1)))).
Proof.
  intros Hparse Hsize.
  rewrite <- size_dom in Hsize. apply size_1_elem_of in Hsize as [p Hp].
  apply leibniz_equiv in Hp. destruct (dom_singleton_inv_L _ _ Hp) as [pdata Hm].
  assert (Hself : p ∈ exclusion_ids pdata).
  { apply (parse_config_file_self _ _ Hparse). rewrite Hm. apply lookup_insert_eq. }
  assert (Hfail : ∀ r, ∃ r', get_assignments config r = Ok (None, r')).
  { intros r. eapply (get_assignments_blocked _ _ p pdata).
    - rewrite Hm. apply lookup_insert_eq.
    - rewrite Hp. set_solver. }
  split; [exists p, pdata; split; [exact Hm|]; rewrite Hp; set_solver|].
  split; [exact Hfail|]. intros r.
  destruct (retry_loop_all_fail config r Hfail) as (st & Hl & Hc & Ha & _ & Hraise).
  exists st. auto.
Qed.

Lemma single_participant_infeasible_witness :
  parse_config_file single_lines = Ok single_config ∧
  size (participants single_config) = 1 ∧
  (∃ p pdata, participants single_config = {[ p := pdata ]} ∧
     dom (participants single_config) ∖ exclusion_ids pdata = ∅) ∧
  (∀ r, ∃ r', get_assignments single_config r = Ok (None, r')) ∧
  (∀ r, ∃ st, retry_loop retry_fuel single_config (loop_init r) = Ok st ∧
     calls st = [None; None; None; None] ∧
     attempts st = MAX_ASSIGNMENT_ATTEMPTS + 1 ∧
     assign_with_retries single_config r =
       Raise (Exception (AssignmentInfeasible (MAX_ASSIGNMENT_ATTEMPTS + 1)))).
Proof.
  assert (H1 : parse_config_file single_lines = Ok single_config) by (vm_compute; reflexivity).
  assert (H2 : size (participants single_config) = 1) by (vm_compute; reflexivity).
  split; [exact H1|]. split; [exact H2|].
  exact (single_participant_infeasible single_lines single_config H1 H2).
Defined.

(** C8: a file with the two administrator lines and no participant line
    (only blank lines after them) makes [parse_config_file] raise
    [KeyError('participants')] at [config[PARTICIPANTS_KEY].keys()],
    before the check of line 106; and no input at all makes it raise
    "Missing participants in configuration file.". *)
Theorem missing_participants_unreachable :
  (∀ (l0 l1 : string) (rest : list string),
     Forall (λ l, PyStr.strip l = "") rest →
     parse_config_file (l0 :: l1 :: rest) = Raise (KeyError PARTICIPANTS_KEY)) ∧
  (∀ lines : list string,
     parse_config_file lines ≠ Raise (Exception MissingParticipants)).
Proof.
  split.
  - intros l0 l1 rest Hb. unfold parse_config_file. cbn [parse_lines].
    rewrite parse_lines_blank by (lia || exact Hb). reflexivity.
  - intros lines. unfold parse_config_file.
    destruct (parse_lines 0 lines cfg_empty ∅) as [[cd all]|e] eqn:E.
    + unfold check_config. destruct (cd_participants cd); [|discriminate].
      case_decide; [discriminate|].
      destruct (cd_administrator_email cd); [|discriminate].
      destruct (cd_administrator_email_password cd); discriminate.
    + intros H. injection H as ->. exact (parse_lines_msg 0 lines cfg_empty ∅ E).
Qed.

Lemma missing_participants_unreachable_witness :
  Forall (λ l, PyStr.strip l = "") [nl] ∧
  parse_config_file admin_only_lines = Raise (KeyError PARTICIPANTS_KEY).
Proof.
  assert (Hb : Forall (λ l, PyStr.strip l = "") [nl]) by (constructor; [reflexivity|constructor]).
  split; [exact Hb|].
  exact (proj1 missing_participants_unreachable
           ("administrator@gmail.com" ++ nl) ("myGmailGeneratedAppPassword" ++ nl) [nl] Hb).
Defined.

(** C9: [parse_config_file] stores the administrator address (line 1)
    stripped of surrounding whitespace, and the administrator password
    (line 2) exactly as read, trailing newline included. *)
Theorem admin_fields_normalisation (l0 l1 : string) (rest : list string) (config : Config) :
  parse_config_file (l0 :: l1 :: rest) = Ok config →
  administrator_email config = PyStr.strip l0 ∧
  administrator_email_password config = l1.
Proof.
  unfold parse_config_file. cbn [parse_lines].
  match goal with |- context [parse_lines 2 rest ?cd ∅] => set (cd2 := cd) end.
  destruct (parse_lines 2 rest cd2 ∅) as [[cd all]|e] eqn:E; [|discriminate].
  destruct (parse_lines_admin 2 _ _ _ _ _ ltac:(lia) E) as [H1 H2].
  unfold check_config. intros Hc.
  destruct (cd_participants cd); [|discriminate].
  case_decide; [discriminate|].
  rewrite H1, H2 in Hc. simpl in Hc. by injection Hc as <-.
Qed.

Lemma admin_fields_normalisation_witness :
  parse_config_file docstring_lines = Ok docstring_config ∧
  administrator_email docstring_config = PyStr.strip ("administrator@gmail.com" ++ nl) ∧
  administrator_email_password docstring_config = "myGmailGeneratedAppPassword" ++ nl ∧
  PyStr.strip ("administrator@gmail.com" ++ nl) = "administrator@gmail.com" ∧
  "myGmailGeneratedAppPassword" ++ nl ≠ PyStr.strip ("myGmailGeneratedAppPassword" ++ nl).
Proof.
  assert (Hp : parse_config_file docstring_lines = Ok docstring_config)
    by (vm_compute; reflexivity).
  destruct (admin_fields_normalisation ("administrator@gmail.com" ++ nl)
              ("myGmailGeneratedAppPassword" ++ nl) _ docstring_config Hp) as [H1 H2].
  split; [exact Hp|]. split; [exact H1|]. split; [exact H2|].
  split; [vm_compute; reflexivity|]. intros H. vm_compute in H. discriminate.
Defined.

(** C10: the assignment identifier is the first
    [MAX_ASSIGNMENT_UUID_LENGTH = 7] characters of the UUID's hex form;
    it has at most (in fact exactly) 7 characters, each a lowercase
    hexadecimal digit, whatever the random bytes. *)
Theorem assignment_uuid_shape (b : list Byte.byte) :
  list_ascii_of_string (Uuid.assignment_uuid b) =
    take Uuid.MAX_ASSIGNMENT_UUID_LENGTH (list_ascii_of_string (Uuid.uuid_hex b)) ∧
  Uuid.MAX_ASSIGNMENT_UUID_LENGTH = 7 ∧
  (String.length (Uuid.assignment_uuid b) ≤ Uuid.MAX_ASSIGNMENT_UUID_LENGTH)%nat ∧
  String.length (Uuid.assignment_uuid b) = 7 ∧
  Forall (λ c, Uuid.is_lower_hex c = true) (list_ascii_of_string (Uuid.assignment_uuid b)).
Proof.
  assert (Hhex : Forall (λ c, Uuid.is_lower_hex c = true) (list_ascii_of_string (Uuid.uuid_hex b)) ∧
                 (32 ≤ length (list_ascii_of_string (Uuid.uuid_hex b)))%nat).
  { unfold Uuid.uuid_hex, Uuid.format_032x.
    rewrite list_ascii_of_string_of_list_ascii.
    pose proof (uuid4_int_nonneg b) as Hn.
    rewrite (proj2 (Z.ltb_ge _ _) Hn).
    apply zero_pad_hex. apply hex_digits_hex. constructor. }
  destruct Hhex as [Hall Hlen].
  unfold Uuid.assignment_uuid.
  rewrite list_ascii_of_string_of_list_ascii, string_length_of_list, length_take.
  split; [reflexivity|]. split; [reflexivity|].
  unfold Uuid.MAX_ASSIGNMENT_UUID_LENGTH.
  split; [lia|]. split; [lia|]. by apply Forall_take.
Qed.

(** C7: [get_assignments] does not mutate the registry it is given.  On
    a heap whose objects all lie below [next], every object that existed
    before a call (successful, failed or raising) has the same contents
    after it; in particular the registry held under [config] reads back
    as the same ids, names, addresses and exclusion sets. *)
Theorem get_assignments_registry_unchanged (config : Heap.loc) (s s' : Heap.state)
    (result : res Heap.pyval) :
  Heap.heap_wf s →
  Heap.get_assignments config s = (result, s') →
  (∀ l o, Heap.mem s !! l = Some o → Heap.mem s' !! l = Some o) ∧
  (∀ reg, Heap.decode_registry (Heap.mem s) config = Some reg →
          Heap.decode_registry (Heap.mem s') config = Some reg).
Proof.
  intros Hwf Hrun.
  destruct (keeps_get_assignments (Heap.next s) config s ltac:(lia)) as (_ & Hmem & _).
  rewrite Hrun in Hmem. simpl in Hmem.
  assert (Hsub : ∀ l o, Heap.mem s !! l = Some o → Heap.mem s' !! l = Some o).
  { intros l o Hl. rewrite Hmem; [done|]. apply Hwf, elem_of_dom. eauto. }
  split; [exact Hsub|]. intros reg. by apply decode_registry_mono.
Qed.

Lemma get_assignments_registry_unchanged_witness :
  Heap.heap_wf example_heap ∧
  is_Some (Heap.decode_registry (Heap.mem example_heap) 0) ∧
  ∃ result s', Heap.get_assignments 0 example_heap = (result, s') ∧
    (∀ l o, Heap.mem example_heap !! l = Some o → Heap.mem s' !! l = Some o) ∧
    (∀ reg, Heap.decode_registry (Heap.mem example_heap) 0 = Some reg →
            Heap.decode_registry (Heap.mem s') 0 = Some reg).
Proof.
  assert (Hwf : Heap.heap_wf example_heap).
  { unfold Heap.heap_wf. apply (bool_decide_unpack _). vm_compute. reflexivity. }
  split; [exact Hwf|]. split; [vm_compute; eexists; reflexivity|].
  destruct (Heap.get_assignments 0 example_heap) as [result s'] eqn:E.
  exists result, s'. split; [reflexivity|].
  exact (get_assignments_registry_unchanged 0 example_heap s' result Hwf E).
Defined.

(** C4: one attempt is the specification's greedy process, with a
    uniformly random order and uniform picks.  (1) Every run of
    [get_assignments] follows [greedy_attempt] over the shuffled ids,
    which are a permutation of the ids, starting from the full pool and
    an empty mapping; (2) every outcome [greedy_attempt] allows for an
    order of the ids is produced on some draws; (3) each order of the ids
    comes from exactly one sequence of in-range shuffle draws, so the
    order is uniform when the draws are; (4) each receiver of an
    [available] set is picked by exactly one in-range draw of [choice]. *)
Theorem get_assignments_greedy_uniform (config : Config) :
  let registry := participants config in
  let ids := (map_to_list registry).*1 in
  (∀ r, (shuffle ids r).1 ≡ₚ ids ∧
        ∃ out r', get_assignments config r = Ok (out, r') ∧
          greedy_attempt registry (shuffle ids r).1 (dom registry) ∅ out) ∧
  (∀ order out, order ≡ₚ ids →
        greedy_attempt registry order (dom registry) ∅ out →
        ∃ ds, ∀ r, get_assignments config (prepend ds r) = Ok (out, r)) ∧
  (∀ order, order ≡ₚ ids →
        exists! ds, draws_in_range (length ids - 1) ds = true ∧
                    ∀ r, shuffle ids (prepend ds r) = (order, r)) ∧
  (∀ (available : gset string) receiver, receiver ∈ available →
        exists! v, v < size available ∧
                   ∀ r, choice (elements available) (prepend [v] r) = Ok (receiver, r)).
Proof.
  intros registry ids. split; [|split; [|split]].
  - intros r. split; [apply shuffle_perm|apply get_assignments_greedy].
  - intros order out. apply greedy_get_assignments.
  - intros order Hp. apply shuffle_uniform; [apply NoDup_fst_map_to_list|done].
  - apply choice_uniform.
Qed.

Lemma get_assignments_greedy_uniform_witness :
  (∃ out r', get_assignments docstring_config zeros = Ok (out, r') ∧
     greedy_attempt (participants docstring_config)
       (shuffle ((map_to_list (participants docstring_config)).*1) zeros).1
       (dom (participants docstring_config)) ∅ out) ∧
  (exists! ds, draws_in_range (length ((map_to_list (participants docstring_config)).*1) - 1) ds = true ∧
     ∀ r, shuffle ((map_to_list (participants docstring_config)).*1) (prepend ds r) =
          ((map_to_list (participants docstring_config)).*1, r)).
Proof.
  destruct (get_assignments_greedy_uniform docstring_config) as (H1 & _ & H3 & _).
  split; [apply (H1 zeros)|apply H3; reflexivity].
Defined.

(* ================================================================= *)
(** * Further properties of the script *)

(** ** Strings: [str.strip], [str.split] and [join] *)


Lemma str_app_nil_r (s : string) : s ++ "" = s.
Proof.
  induction s as [|c s IH]; [done|]. change (String c (s ++ "") = String c s). by rewrite IH.
Qed.


Lemma strip_los s : PyStr.strip s = string_of_list_ascii (strip_l (list_ascii_of_string s)).
Proof. reflexivity. Qed.

Lemma drop_space_spaces (ws l : list ascii) :
  Forall (λ c, PyStr.is_space c = true) ws → PyStr.drop_space (ws ++ l)%list = PyStr.drop_space l.
Proof. induction 1 as [|c ws Hc _ IH]; simpl; [done|]. by rewrite Hc. Qed.


Lemma drop_space_all (l : list ascii) :
  Forall (λ c, PyStr.is_space c = true) l → PyStr.drop_space l = [].
Proof. intros H. rewrite <- (app_nil_r l). rewrite drop_space_spaces; done. Qed.




Lemma drop_space_nil (l : list ascii) :
  PyStr.drop_space l = [] → Forall (λ c, PyStr.is_space c = true) l.
Proof.
  induction l as [|c l IH]; simpl; [constructor|].
  destruct (PyStr.is_space c) eqn:Hc; [|discriminate]. intros H. constructor; auto.
Qed.

Lemma drop_space_idem (l : list ascii) : PyStr.drop_space (PyStr.drop_space l) = PyStr.drop_space l.
Proof.
  induction l as [|c l IH]; simpl; [done|].
  destruct (PyStr.is_space c) eqn:Hc; [done|]. simpl. by rewrite Hc.
Qed.

Lemma strip_l_nil (l : list ascii) :
  strip_l l = [] → Forall (λ c, PyStr.is_space c = true) l.
Proof.
  unfold strip_l. intros H. apply (f_equal (@rev ascii)) in H.
  rewrite rev_involutive in H. simpl in H.
  apply drop_space_nil, Forall_rev in H. rewrite rev_involutive in H.
  apply drop_space_all in H. rewrite drop_space_idem in H. by apply drop_space_nil.
Qed.

(** A string with a character that is not whitespace does not strip to
    the empty string. *)
Lemma strip_nonblank (s : string) c :
  c ∈ list_ascii_of_string s → PyStr.is_space c = false → PyStr.strip s ≠ "".
Proof.
  intros Hc Hs H. rewrite strip_los in H.
  assert (strip_l (list_ascii_of_string s) = []) as Hn.
  { rewrite <- (list_ascii_of_string_of_list_ascii (strip_l _)), H. done. }
  apply strip_l_nil in Hn. rewrite Forall_forall in Hn.
  rewrite Hn in Hs by exact Hc. discriminate.
Qed.

Lemma split_chars_nosep sep (l : list ascii) : sep ∉ l → PyStr.split_chars sep l = [l].
Proof.
  induction l as [|c l IH]; intros Hn; simpl; [done|].
  rewrite IH by (intros H; apply Hn; by right).
  destruct (Ascii.eqb_spec c sep) as [->|]; [exfalso; apply Hn; left|]; done.
Qed.


Lemma split_nosep sep (a : string) : sep ∉ list_ascii_of_string a → PyStr.split sep a = [a].
Proof.
  intros Hn. unfold PyStr.split. rewrite split_chars_nosep by done. simpl.
  by rewrite string_of_list_ascii_of_string.
Qed.







(** ** Writing and reading back a configuration file *)










(** ** Parsing: invariants and exceptions *)

Lemma parse_participant_line_closed line cd all cd' all' :
  parse_participant_line line cd all = Ok (cd', all') →
  reg_closed all cd → all ⊆ all' ∧ reg_closed all' cd'.
Proof.
  unfold parse_participant_line. intros Hrun Hinv.
  destruct (String.eqb (PyStr.strip line) "").
  { injection Hrun as <- <-. done. }
  destruct (map PyStr.strip (PyStr.split "," line)) as [|pid [|nm [|em [|ax [|]]]]];
    try discriminate.
  destruct (bad_exclusion_format ax); [discriminate|].
  case_decide; [discriminate|]. injection Hrun as <- <-.
  split; [set_solver|]. unfold reg_closed. cbn [cd_participants]. split.
  { apply insert_non_empty. }
  apply map_Forall_insert_2; [set_solver|].
  unfold reg_closed in Hinv. destruct (cd_participants cd) as [pd|]; simpl.
  - destruct Hinv as [_ Hinv]. intros k p Hk. specialize (Hinv k p Hk). simpl in Hinv. set_solver.
  - apply map_Forall_empty.
Qed.

Lemma parse_lines_closed n lines cd all cd' all' :
  parse_lines n lines cd all = Ok (cd', all') →
  reg_closed all cd → reg_closed all' cd'.
Proof.
  revert n cd all. induction lines as [|line lines IH]; intros n cd all Hrun Hinv; simpl in Hrun.
  - by injection Hrun as <- <-.
  - destruct n as [|[|n]].
    + apply (IH _ _ _ Hrun). exact Hinv.
    + apply (IH _ _ _ Hrun). exact Hinv.
    + destruct (parse_participant_line line cd all) as [[cd1 all1]|e] eqn:E; [|discriminate].
      apply (IH _ _ _ Hrun). apply (parse_participant_line_closed _ _ _ _ _ E Hinv).
Qed.

(** A registry [parse_config_file] returns is non-empty, and every
    participant's exclusion set contains the participant and only ids of
    the registry. *)
Theorem parse_config_file_closed (lines : list string) (config : Config) :
  parse_config_file lines = Ok config →
  participants config ≠ ∅ ∧
  map_Forall (λ id p, id ∈ exclusion_ids p ∧ exclusion_ids p ⊆ dom (participants config))
    (participants config).
Proof.
  intros Hparse. pose proof (parse_config_file_self _ _ Hparse) as Hself. revert Hparse.
  unfold parse_config_file.
  destruct (parse_lines 0 lines cfg_empty ∅) as [[cd all]|e] eqn:E; [|discriminate].
  pose proof (parse_lines_closed _ _ _ _ _ _ E I) as Hcl.
  unfold check_config. unfold reg_closed in Hcl.
  destruct (cd_participants cd) as [pd|]; [|discriminate].
  case_decide as Hu; [discriminate|].
  destruct (cd_administrator_email cd); [|discriminate].
  destruct (cd_administrator_email_password cd); [|discriminate].
  intros Hc. injection Hc as <-. simpl in *. destruct Hcl as [Hne Hcl].
  split; [done|]. intros id p Hp. split; [by apply (Hself id p Hp)|].
  specialize (Hcl id p Hp). simpl in Hcl.
  intros x Hx. destruct (decide (x ∈ dom pd)) as [|Hn]; [done|].
  exfalso. set_solver.
Qed.




Lemma parse_lines_app n xs ys cd all :
  parse_lines n (xs ++ ys) cd all =
  match parse_lines n xs cd all with
  | Raise e => Raise e
  | Ok (cd', all') => parse_lines (n + length xs) ys cd' all'
  end.
Proof.
  revert n cd all. induction xs as [|x xs IH]; intros n cd all; simpl.
  - by rewrite Nat.add_0_r.
  - destruct n as [|[|n]].
    + rewrite IH. reflexivity.
    + rewrite IH. reflexivity.
    + destruct (parse_participant_line x cd all) as [[cd1 all1]|e]; [|done].
      rewrite IH. by rewrite Nat.add_succ_r.
Qed.

Lemma split_has_sep sep (s : string) a b l :
  PyStr.split sep s = a :: b :: l → sep ∈ list_ascii_of_string s.
Proof.
  intros Hs. destruct (decide (sep ∈ list_ascii_of_string s)) as [|Hn]; [done|].
  rewrite split_nosep in Hs by done. discriminate.
Qed.

(** Appending to a valid file a well-formed participant line whose id is
    already registered makes [parse_config_file] raise the duplicate id
    message for that id, whatever lines follow. *)
Theorem parse_config_file_duplicate (lines : list string) (config : Config)
    (line : string) (post : list string) (pid nm em ax : string) :
  parse_config_file lines = Ok config →
  map PyStr.strip (PyStr.split "," line) = [pid; nm; em; ax] →
  bad_exclusion_format ax = false →
  pid ∈ dom (participants config) →
  parse_config_file ((lines ++ line :: post)%list) = Raise (Exception (DuplicatePersonId pid)).
Proof.
  intros Hparse Hfields Hfmt Hdup. revert Hparse. unfold parse_config_file.
  rewrite parse_lines_app.
  destruct (parse_lines 0 lines cfg_empty ∅) as [[cd all]|e] eqn:E; [|discriminate].
  unfold check_config. destruct (cd_participants cd) as [pd|] eqn:Hpd; [|discriminate].
  case_decide; [discriminate|].
  destruct (cd_administrator_email cd); [|discriminate].
  destruct (cd_administrator_email_password cd); [|discriminate].
  intros Hc. injection Hc as <-. simpl in Hdup.
  assert (Hlen : 2 ≤ length lines).
  { destruct lines as [|l0 [|l1 rest]]; simpl in E; [| |simpl; lia];
      injection E as <- _; discriminate. }
  destruct (length lines) as [|[|k]]; [lia|lia|]. simpl.
  unfold parse_participant_line.
  rewrite (proj2 (String.eqb_neq _ _)).
  2:{ apply (strip_nonblank _ ","%char); [|reflexivity].
      destruct (PyStr.split "," line) as [|a [|b l]] eqn:Hs; try discriminate.
      exact (split_has_sep _ _ _ _ _ Hs). }
  rewrite Hfields, Hfmt, Hpd. simpl. rewrite decide_True by done. reflexivity.
Qed.

(** ** The retry loop: what it returns *)
Lemma retry_loop_from_attempt (config : Config) fuel st st' :
  retry_loop fuel config st = Ok st' →
  (assignments st = None ∨ ∃ r0, get_assignments config r0 = Ok (assignments st, rng st)) →
  assignments st' = None ∨ ∃ r0, get_assignments config r0 = Ok (assignments st', rng st').
Proof.
  revert st. induction fuel as [|fuel IH]; intros st Hrun Hinv; simpl in Hrun.
  - by injection Hrun as <-.
  - destruct (_ && _); [|by injection Hrun as <-].
    destruct (get_assignments config (rng st)) as [[a r']|e] eqn:E; [|discriminate].
    apply (IH _ Hrun). right. exists (rng st). exact E.
Qed.

Lemma assign_with_retries_attempt (config : Config) r a r' :
  assign_with_retries config r = Ok (a, r') →
  a ≠ ∅ ∧ ∃ r0, get_assignments config r0 = Ok (Some a, r').
Proof.
  unfold assign_with_retries.
  destruct (retry_loop retry_fuel config (loop_init r)) as [st|e] eqn:E; [|discriminate].
  destruct (retry_loop_from_attempt _ _ _ _ E (or_introl eq_refl)) as [Hn|[r0 Hr0]].
  - by rewrite Hn.
  - destruct (assignments st) as [a'|]; [|discriminate].
    case_bool_decide as Hne; [discriminate|]. intros [= <- <-]. eauto.
Qed.

(** The assignment the retry loop returns for a parsed registry is a
    bijection on the participant ids that respects every exclusion set
    and assigns nobody to themselves. *)
Theorem assign_with_retries_valid (lines : list string) (config : Config) (r r' : rstate)
    (a : assignment) :
  parse_config_file lines = Ok config →
  assign_with_retries config r = Ok (a, r') →
  dom a = dom (participants config) ∧
  (∀ v, v ∈ dom (participants config) ↔ ∃ g, a !! g = Some v) ∧
  (∀ g1 g2 v, a !! g1 = Some v → a !! g2 = Some v → g1 = g2) ∧
  (∀ g v, a !! g = Some v →
     ∃ p, participants config !! g = Some p ∧ (v ∉ exclusion_ids p) ∧ v ≠ g).
Proof.
  intros Hparse Hrun.
  destruct (assign_with_retries_attempt _ _ _ _ Hrun) as [_ [r0 E]].
  destruct (get_assignments_some_bijective _ _ _ _ E) as (Hdom & Himg & Hinj).
  do 3 (split; [done|]).
  intros g v Hg.
  assert (Hex : ∃ p, participants config !! g = Some p ∧ v ∉ exclusion_ids p).
  { revert E. unfold get_assignments. destruct (shuffle _ r0) as [order r1]. intros E.
    eapply assign_loop_excluded; [exact E| |exact Hg].
    intros g' v' H. by rewrite lookup_empty in H. }
  destruct Hex as (p & Hp & Hv). exists p. do 2 (split; [done|]).
  intros ->. apply Hv. exact (parse_config_file_self _ _ Hparse _ _ Hp).
Qed.

Section Complete.
Variable registry : gmap string participant.
Variable a : assignment.
Hypothesis a_inj : ∀ g1 g2 v, a !! g1 = Some v → a !! g2 = Some v → g1 = g2.

Lemma greedy_follows order rem (asg : assignment) :
  NoDup order →
  (∀ g, g ∈ order → ∃ pdata v, registry !! g = Some pdata ∧ a !! g = Some v ∧
                          (v ∉ exclusion_ids pdata) ∧ v ∈ rem) →
  ∃ out, SpecGreedy.greedy_attempt registry order rem asg (Some out) ∧
    ∀ k, out !! k = if decide (k ∈ order) then a !! k else asg !! k.
Proof.
  revert rem asg. induction order as [|g order IH]; intros rem asg Hnd Hall.
  - exists asg. split; [constructor|]. intros k. rewrite decide_False by set_solver. done.
  - apply NoDup_cons in Hnd as [Hg Hnd].
    destruct (Hall g ltac:(set_solver)) as (pdata & v & Hp & Hv & Hex & Hrem).
    destruct (IH (rem ∖ {[ v ]}) (<[ g := v ]> asg) Hnd) as (out & Hrun & Hout).
    { intros g' Hg'. destruct (Hall g' ltac:(set_solver)) as (pd' & v' & H1 & H2 & H3 & H4).
      exists pd', v'. do 3 (split; [done|]). apply elem_of_difference. split; [done|].
      intros ->%elem_of_singleton. apply Hg. rewrite (a_inj _ _ _ Hv H2). done. }
    exists out. split.
    + eapply SpecGreedy.greedy_pick; [exact Hp| |exact Hrun]. set_solver.
    + intros k. rewrite Hout. destruct (decide (k = g)) as [->|Hne].
      * rewrite decide_False by done. rewrite decide_True by set_solver.
        by rewrite lookup_insert_eq.
      * rewrite lookup_insert_ne by congruence.
        destruct (decide (k ∈ order)); [by rewrite decide_True by set_solver|].
        rewrite decide_False by set_solver. done.
Qed.

End Complete.

(** Every non-empty bijection on the participant ids that respects the
    exclusion sets is the outcome of one attempt on some random draws,
    and the retry loop then returns it after that first attempt. *)
Theorem assign_with_retries_complete (config : Config) (a : assignment) :
  a ≠ ∅ →
  dom a = dom (participants config) →
  (∀ g1 g2 v, a !! g1 = Some v → a !! g2 = Some v → g1 = g2) →
  (∀ g v, a !! g = Some v →
     ∃ p, participants config !! g = Some p ∧ v ∈ dom (participants config) ∧
          v ∉ exclusion_ids p) →
  ∃ ds, ∀ r, get_assignments config (prepend ds r) = Ok (Some a, r) ∧
             assign_with_retries config (prepend ds r) = Ok (a, r).
Proof.
  intros Hne Hdom Hinj Hok.
  set (order := (map_to_list (participants config)).*1).
  destruct (greedy_follows (participants config) a Hinj order (dom (participants config)) ∅)
    as (out & Hg & Hout).
  { apply NoDup_fst_map_to_list. }
  { intros g Hg. apply keys_elem in Hg. rewrite <- Hdom in Hg.
    apply elem_of_dom in Hg as [v Hv]. destruct (Hok g v Hv) as (p & Hp & Hd & Hx).
    exists p, v. done. }
  assert (Ha : out = a).
  { apply map_eq. intros k. rewrite Hout. case_decide as Hk; [done|].
    rewrite lookup_empty. symmetry. apply not_elem_of_dom. rewrite Hdom.
    intros Hk'. apply Hk. by apply keys_elem. }
  subst out.
  destruct (greedy_get_assignments config order (Some a)) as [ds Hds]; [done|done|].
  exists ds. intros r. split; [apply Hds|].
  unfold assign_with_retries, retry_fuel. cbn - [get_assignments]. rewrite Hds.
  cbn - [get_assignments]. rewrite bool_decide_false by done. simpl.
  rewrite bool_decide_false by done. reflexivity.
Qed.

(** On an empty registry an attempt returns the empty dictionary, which
    the retry loop treats as a failure: after four attempts it raises
    the infeasibility message with [attempts=4]. *)
Theorem empty_registry_infeasible (config : Config) (r : rstate) :
  participants config = ∅ →
  get_assignments config r = Ok (Some ∅, r) ∧
  assign_with_retries config r = Raise (Exception (AssignmentInfeasible 4)).
Proof.
  intros He.
  assert (Hg : ∀ r, get_assignments config r = Ok (Some ∅, r)).
  { intros r0. unfold get_assignments. rewrite He, map_to_list_empty, dom_empty_L. reflexivity. }
  split; [apply Hg|].
  unfold assign_with_retries, retry_fuel. cbn - [get_assignments].
  rewrite !Hg. reflexivity.
Qed.

(** ** Printing and sending the assignments *)
Lemma print_loop_known (config : Config) (items : pydict) :
  (∀ g r, (g, r) ∈ items → g ∈ dom (participants config) ∧ r ∈ dom (participants config)) →
  ∃ out, print_loop items config = (out, Ok tt) ∧
    Forall2 (λ '(g, r) line, ∃ pg pr, participants config !! g = Some pg ∧
               participants config !! r = Some pr ∧ line = gives_to (name pg) (name pr))
      items out.
Proof.
  induction items as [|[g r] items IH]; intros Hk.
  - exists []. split; constructor.
  - destruct (Hk g r ltac:(set_solver)) as [Hg Hr].
    apply elem_of_dom in Hg as [pg Hg]. apply elem_of_dom in Hr as [pr Hr].
    destruct IH as (out & Hrun & Hf); [intros g' r' H; apply Hk; set_solver|].
    exists (gives_to (name pg) (name pr) :: out). simpl.
    unfold participant_name. rewrite Hg, Hr, Hrun. split; [done|].
    constructor; [eauto|done].
Qed.

(** When every id of the items is registered, [pretty_print_assignments]
    prints the identifier line and then one line per item, in the order
    of the items, with the names of giver and receiver, and raises
    nothing. *)
Theorem pretty_print_assignments_known (uuid : string) (items : pydict) (config : Config) :
  (∀ g r, (g, r) ∈ items → g ∈ dom (participants config) ∧ r ∈ dom (participants config)) →
  ∃ out, pretty_print_assignments uuid items config =
           (("Assignment Id: " ++ uuid) :: out, Ok tt) ∧
    Forall2 (λ '(g, r) line, ∃ pg pr, participants config !! g = Some pg ∧
               participants config !! r = Some pr ∧ line = gives_to (name pg) (name pr))
      items out.
Proof.
  intros Hk. destruct (print_loop_known config items Hk) as (out & Hrun & Hf).
  exists out. unfold pretty_print_assignments. rewrite Hrun. done.
Qed.

(** At the first item with an unregistered id, [pretty_print_assignments]
    raises [KeyError] for the giver if it is unknown, otherwise for the
    receiver, after printing the identifier and the lines of the items
    before it. *)
Theorem pretty_print_assignments_unknown (uuid : string) (pre post : pydict)
    (g r : string) (config : Config) :
  (∀ g' r', (g', r') ∈ pre →
     g' ∈ dom (participants config) ∧ r' ∈ dom (participants config)) →
  (g ∉ dom (participants config) ∨ r ∉ dom (participants config)) →
  ∃ out, pretty_print_assignments uuid ((pre ++ (g, r) :: post)%list) config =
           (("Assignment Id: " ++ uuid) :: out,
            Raise (KeyError (if decide (g ∈ dom (participants config)) then r else g))) ∧
    length out = length pre.
Proof.
  intros Hk Hbad. unfold pretty_print_assignments.
  assert (Hl : ∃ out, print_loop ((pre ++ (g, r) :: post)%list) config =
    (out, Raise (KeyError (if decide (g ∈ dom (participants config)) then r else g))) ∧
    length out = length pre).
  { induction pre as [|[g' r'] pre IH].
    - exists []. split; [|done]. simpl. unfold participant_name.
      case_decide as Hg.
      + apply elem_of_dom in Hg as [pg Hg]. rewrite Hg.
        destruct Hbad as [Hn|Hn]; [by apply not_elem_of_dom in Hn; rewrite Hn in Hg|].
        apply not_elem_of_dom in Hn. by rewrite Hn.
      + apply not_elem_of_dom in Hg. by rewrite Hg.
    - destruct (Hk g' r' ltac:(set_solver)) as [Hg Hr].
      apply elem_of_dom in Hg as [pg Hg]. apply elem_of_dom in Hr as [pr Hr].
      destruct IH as (out & Hrun & Hlen); [intros ? ? ?; apply Hk; set_solver|].
      exists (gives_to (name pg) (name pr) :: out). simpl.
      unfold participant_name at 1 2. rewrite Hg, Hr. simpl in Hrun. rewrite Hrun.
      split; [done|]. simpl. by rewrite Hlen. }
  destruct Hl as (out & Hrun & Hlen). exists out. rewrite Hrun. done.
Qed.

Lemma dict_set_spec (d : pydict) k v :
  NoDup d.*1 →
  NoDup (dict_set d k v).*1 ∧
  (∀ k', k' ∈ (dict_set d k v).*1 ↔ k' = k ∨ k' ∈ d.*1) ∧
  (list_to_map (dict_set d k v) : gmap string string) = <[k := v]> (list_to_map d).
Proof.
  induction d as [|[k' v'] d IH]; intros Hnd.
  - simpl. split; [constructor; [set_solver|constructor]|]. split; [set_solver|done].
  - simpl in Hnd. apply NoDup_cons in Hnd as [Hn Hnd]. cbn [dict_set].
    destruct (String.eqb_spec k' k) as [->|Hne].
    + simpl. split; [by constructor|]. split; [set_solver|]. by rewrite insert_insert_eq.
    + destruct (IH Hnd) as (Hnd' & Hk & Hm). simpl. split.
      * constructor; [|done]. rewrite Hk. set_solver.
      * split; [intros k''; rewrite elem_of_cons, Hk; set_solver|].
        rewrite Hm. by rewrite insert_insert_ne.
Qed.

Lemma dict_set_fold (ps d : pydict) :
  NoDup d.*1 →
  let d' := foldl (λ d '(k, v), dict_set d k v) d ps in
  NoDup d'.*1 ∧ (∀ k, k ∈ d'.*1 ↔ k ∈ d.*1 ∨ k ∈ ps.*1) ∧
  (list_to_map d' : gmap string string) = list_to_map (reverse ps) ∪ list_to_map d.
Proof.
  revert d. induction ps as [|[k v] ps IH]; intros d Hnd; simpl.
  - split; [done|]. split; [set_solver|]. by rewrite map_empty_union.
  - destruct (dict_set_spec d k v Hnd) as (Hnd1 & Hk1 & Hm1).
    destruct (IH _ Hnd1) as (Hnd2 & Hk2 & Hm2). split; [done|]. split.
    + intros k'. rewrite Hk2, Hk1. set_solver.
    + rewrite Hm2, Hm1, reverse_cons, list_to_map_app. simpl.
      rewrite insert_union_singleton_l, map_union_assoc. f_equal.
Qed.

(** [assignments_by_name], the dictionary [send_assignment_emails] builds
    with [d[giver_name] = getter_name]: each giver name appears once,
    the names are exactly the giver names inserted, and each one maps to
    the receiver name inserted last for it. *)
Theorem assignments_by_name_spec (ps : pydict) :
  let d := foldl (λ d '(k, v), dict_set d k v) [] ps in
  NoDup d.*1 ∧ (∀ k, k ∈ d.*1 ↔ k ∈ ps.*1) ∧
  ∀ k v, (k, v) ∈ d ↔ (list_to_map (reverse ps) : gmap string string) !! k = Some v.
Proof.
  destruct (dict_set_fold ps [] ltac:(constructor)) as (Hnd & Hk & Hm). simpl in *.
  split; [done|]. split; [intros k; rewrite Hk; set_solver|].
  intros k v. rewrite (elem_of_list_to_map (M:=gmap string)); [|done].
  rewrite Hm. by rewrite map_union_empty.
Qed.

Section Appends.
Variable P : event → Prop.

Lemma appends_ret {A} (a : A) : appends (io_ret a) P.
Proof. intros w o w' [= _ <-]. exists []. by rewrite app_nil_r. Qed.

Lemma appends_throw {A} e : appends (A:=A) (io_throw e) P.
Proof. intros w o w' [= _ <-]. exists []. by rewrite app_nil_r. Qed.

Lemma appends_lift {A} (r : res A) : appends (lift r) P.
Proof. destruct r; [apply appends_ret|apply appends_throw]. Qed.



Lemma appends_bind {A B} (m : IO A) (k : A → IO B) :
  appends m P → (∀ a, appends (k a) P) → appends (io_bind m k) P.
Proof.
  intros Hm Hk w o w'. unfold io_bind. destruct (m w) as [[a|e] w1] eqn:E.
  - intros H2. destruct (Hm _ _ _ E) as (evs1 & Ht1 & Hf1).
    destruct (Hk a _ _ _ H2) as (evs2 & Ht2 & Hf2).
    exists (app evs1 evs2). rewrite Ht2, Ht1, app_assoc. split; [done|]. by apply Forall_app.
  - intros [= _ <-]. by apply (Hm _ _ _ E).
Qed.

End Appends.





Lemma content_eq (ec : option string) (s : string) :
  match ec with
  | Some c => if content_truthy ec then s ++ crlf ++ crlf ++ c else s
  | None => s
  end = s ++ (if content_truthy ec then crlf ++ crlf ++ default "" ec else "").
Proof.
  destruct ec as [c|]; simpl; [destruct (negb (String.eqb c "")); simpl|];
    by rewrite ?str_app_nil_r.
Qed.

Lemma send_loop_ok (config : Config) subject ec items (infos : list (string * string * string))
    abn (w : world) :
  (∀ k, replies w k = true) →
  Forall2 (λ '(g, r) '(gn, ge, rn), ∃ pg pr, participants config !! g = Some pg ∧
             participants config !! r = Some pr ∧ gn = name pg ∧ ge = email pg ∧ rn = name pr)
    items infos →
  ∃ w', send_loop config subject ec items abn w =
          (Return (foldl (λ d '(gn, _, rn), dict_set d gn rn) abn infos), w') ∧
    trace w' = app (trace w)
      (flat_map (λ '(gn, ge, rn),
         [SmtpSendmail (administrator_email config) ge
            ("Subject: " ++ subject ++ lf ++ lf ++ gives_to gn rn ++
             (if content_truthy ec then crlf ++ crlf ++ default "" ec else ""));
          Stdout ("Sent assignment to " ++ ge ++ ".")]) infos) ∧
    ∀ k, replies w' k = true.
Proof.
  intros Hr Hf. revert abn w Hr. induction Hf as [|[g r] [[gn ge] rn] items infos Hx Hf IH];
    intros abn w Hr.
  - exists w. split; [done|]. split; [by rewrite app_nil_r|done].
  - destruct Hx as (pg & pr & Hg & Hpr & -> & -> & ->). cbn [send_loop].
    unfold participant_name, participant_email. rewrite Hg, Hpr.
    unfold io_bind at 1. cbn [lift io_ret].
    unfold io_bind at 1. cbn [lift io_ret].
    unfold io_bind at 1. cbn [lift io_ret].
    unfold io_bind at 1. unfold smtp at 1. rewrite Hr.
    unfold io_bind at 1. unfold emit at 1. cbn [trace replies].
    rewrite content_eq.
    match goal with |- context [send_loop _ _ _ _ ?d ?w'] =>
      destruct (IH d w') as (w'' & Hrun & Ht & Hr'') end.
    { intros k. simpl. apply Hr. }
    exists w''. rewrite Hrun. split; [done|]. split; [|done].
    rewrite Ht. simpl. by rewrite <- !app_assoc.
Qed.

(** With a server that accepts every command and registered ids,
    [send_assignment_emails] connects, starts TLS, logs in, sends each
    giver their assignment (with the extra content after a blank line
    when it is non-empty) and prints a confirmation, then sends the
    administrator the list built from [assignments_by_name], prints a
    confirmation and quits. *)
Theorem send_assignment_emails_success (uuid : string) (items : pydict) (config : Config)
    (ec : option string) (infos : list (string * string * string)) (w : world) :
  (∀ k, replies w k = true) →
  Forall2 (λ '(g, r) '(gn, ge, rn), ∃ pg pr, participants config !! g = Some pg ∧
             participants config !! r = Some pr ∧ gn = name pg ∧ ge = email pg ∧ rn = name pr)
    items infos →
  let admin := administrator_email config in
  let subject := "Alert: Secret Santa Assignment (" ++ uuid ++ ")" in
  let '(o, w') := send_assignment_emails uuid items config ec w in
  o = Return tt ∧
  trace w' = app (trace w)
    (app [SmtpConnect "smtp.gmail.com" 587; SmtpStartTLS;
          SmtpLogin admin (administrator_email_password config)]
    (app (flat_map (λ '(gn, ge, rn),
           [SmtpSendmail admin ge
              ("Subject: " ++ subject ++ lf ++ lf ++ gives_to gn rn ++
               (if content_truthy ec then crlf ++ crlf ++ default "" ec else ""));
            Stdout ("Sent assignment to " ++ ge ++ ".")]) infos)
         [SmtpSendmail admin admin
            (generate_administrator_email_message uuid
               (foldl (λ d '(gn, _, rn), dict_set d gn rn) [] infos) admin);
          Stdout ("Sent all assignments to " ++ admin ++ ".");
          SmtpQuit])).
Proof.
  intros Hr Hf. cbn zeta. unfold send_assignment_emails.
  unfold io_bind at 1. unfold smtp at 1. rewrite Hr.
  unfold io_bind at 1. unfold smtp at 1. cbn [replies trace]. rewrite Hr.
  unfold io_bind at 1. unfold smtp at 1. cbn [replies trace]. rewrite Hr.
  unfold try_finally, try_except. cbv beta.
  unfold io_bind at 1.
  match goal with |- context [send_loop ?c ?s ?e ?i [] ?w3] =>
    destruct (send_loop_ok c s e i infos [] w3) as (w4 & Hrun & Ht & Hr4) end.
  { intros k. simpl. apply Hr. }
  { exact Hf. }
  rewrite Hrun. unfold io_bind at 1. unfold smtp at 1. rewrite Hr4.
  unfold emit, smtp. cbn [trace replies]. rewrite Hr4. simpl.
  split; [done|]. rewrite Ht. simpl. by rewrite <- !app_assoc.
Qed.

(** ** The entry point *)

(** With a number of arguments other than one or two, the script prints
    the two usage lines and exits with status 1, reading no file. *)
Theorem main_usage (items_of : assignment → pydict) (prog : string) (args : list string)
    (fs : Main.files) (r : rstate) (b : list Byte.byte) (w : world) :
  length args ≠ 1 → length args ≠ 2 →
  Main.main items_of prog args fs r b w =
  (Fail (SystemExit 1),
   {| trace := app (trace w)
        [Stdout ("To generate and send emails:" ++ lf ++ String (ascii_of_nat 9)
                   ("usage: python " ++ prog ++ " config_filename [email_content_filename]"));
         Stdout ("To generate and print output without emails:" ++ lf ++ String (ascii_of_nat 9)
                   ("usage: python " ++ prog ++ " -p config_filename"))];
      replies := replies w |}).
Proof.
  intros H1 H2. unfold Main.main.
  assert (Hd : Main.dispatch args = Main.Usage).
  { destruct args as [|a1 [|a2 [|a3 args]]]; simpl in *; done. }
  rewrite Hd. unfold io_bind, emit, io_throw. simpl. by rewrite <- app_assoc.
Qed.

(** When the configuration file is missing, does not parse, or admits no
    assignment, the script fails before printing anything or contacting
    the SMTP server. *)
Theorem main_no_assignment (items_of : assignment → pydict) (prog : string)
    (args : list string) (fs : Main.files) (r : rstate) (b : list Byte.byte) (w : world)
    (fn : string) (send : bool) (ecf : option string) :
  Main.dispatch args = Main.Run fn send ecf →
  (∀ content config, fs fn = Some content →
     parse_config_file (Main.file_lines content) = Ok config →
     ∃ e, assign_with_retries config r = Raise e) →
  ∃ e, Main.main items_of prog args fs r b w = (Fail e, w) ∧
       (e = FileNotFoundError fn ∨ ∃ x, e = PyExn x).
Proof.
  intros Hd Hno. unfold Main.main. rewrite Hd. unfold Main.open_read.
  destruct (fs fn) as [content|] eqn:Hfs; [|eauto].
  unfold io_bind at 1. cbn [io_ret]. unfold io_bind at 1.
  destruct (parse_config_file (Main.file_lines content)) as [config|e] eqn:Hp; [|eauto].
  cbn [lift io_ret]. unfold io_bind at 1.
  destruct (Hno content config eq_refl Hp) as [e He]. rewrite He. eauto.
Qed.

(** With [-p], the script only prints: it sends no SMTP command. *)
Theorem main_print_mode_output (items_of : assignment → pydict) (prog fn : string)
    (fs : Main.files) (r : rstate) (b : list Byte.byte) (w : world) :
  let '(o, w') := Main.main items_of prog ["-p"; fn] fs r b w in
  ∃ outs, trace w' = app (trace w) (map Stdout outs).
Proof.
  assert (Ha : appends (Main.main items_of prog ["-p"; fn] fs r b) (λ ev, ∃ s, ev = Stdout s)).
  { unfold Main.main. cbn [Main.dispatch]. rewrite (proj2 (String.eqb_eq _ _) eq_refl).
    apply appends_bind; [unfold Main.open_read; destruct (fs fn);
                         [apply appends_ret|apply appends_throw]|intros content].
    apply appends_bind; [apply appends_lift|intros config].
    apply appends_bind; [apply appends_lift|intros ar]. cbn zeta.
    destruct (pretty_print_assignments _ _ _) as [out res].
    apply appends_bind; [|intros _; apply appends_lift].
    intros w0 o w' [= _ <-]. exists (map Stdout out). split; [done|].
    apply Forall_forall. intros ev Hin. apply list_elem_of_fmap in Hin as (s & -> & _). eauto. }
  destruct (Main.main items_of prog ["-p"; fn] fs r b w) as [o w'] eqn:E.
  destruct (Ha _ _ _ E) as (evs & Ht & Hf). simpl. rewrite Ht.
  assert (Hm : ∃ outs, evs = map Stdout outs).
  { clear -Hf. induction Hf as [|ev evs [s ->] Hf [outs Houts]]; [by exists []|].
    exists (s :: outs). by rewrite Houts. }
  destruct Hm as [outs ->]. eauto.
Qed.

Lemma assign_with_retries_items (config : Config) r a r' (items : pydict) :
  assign_with_retries config r = Ok (a, r') →
  items ≡ₚ map_to_list a →
  (∀ g v, (g, v) ∈ items → g ∈ dom (participants config) ∧ v ∈ dom (participants config)) ∧
  length items = size (participants config).
Proof.
  intros Hrun Hperm.
  destruct (assign_with_retries_attempt _ _ _ _ Hrun) as [_ [r0 E]].
  destruct (get_assignments_some_bijective _ _ _ _ E) as (Hdom & Himg & _).
  split.
  - intros g v Hin. rewrite Hperm in Hin. apply elem_of_map_to_list in Hin.
    split; [rewrite <- Hdom; by apply elem_of_dom_2 with v|].
    apply Himg. eauto.
  - rewrite Hperm, length_map_to_list, <- (size_dom a), Hdom, size_dom. done.
Qed.

(** With [-p] and a feasible configuration file, the script prints the
    identifier line and one line per participant, and ends normally. *)
Theorem main_print_mode_success (items_of : assignment → pydict) (prog fn : string)
    (fs : Main.files) (r r' : rstate) (b : list Byte.byte) (w : world)
    (content : string) (config : Config) (a : assignment) :
  fs fn = Some content →
  parse_config_file (Main.file_lines content) = Ok config →
  assign_with_retries config r = Ok (a, r') →
  items_of a ≡ₚ map_to_list a →
  ∃ out, Main.main items_of prog ["-p"; fn] fs r b w =
           (Return tt,
            {| trace := app (trace w)
                 (map Stdout (("Assignment Id: " ++ Uuid.assignment_uuid b) :: out));
               replies := replies w |}) ∧
    length out = size (participants config) ∧
    Forall2 (λ '(g, v) line, ∃ pg pv, participants config !! g = Some pg ∧
               participants config !! v = Some pv ∧ line = gives_to (name pg) (name pv))
      (items_of a) out.
Proof.
  intros Hfs Hp Ha Hperm.
  destruct (assign_with_retries_items _ _ _ _ _ Ha Hperm) as [Hk Hlen].
  destruct (print_loop_known config (items_of a) Hk) as (out & Hrun & Hf).
  exists out. unfold Main.main. cbn [Main.dispatch]. rewrite (proj2 (String.eqb_eq _ _) eq_refl).
  unfold Main.open_read, io_bind, io_ret, lift. rewrite Hfs, Hp; cbv beta iota delta [io_ret io_throw]; rewrite Ha; cbv beta iota delta [io_ret io_throw].
  cbn [fst]. unfold pretty_print_assignments. rewrite Hrun. simpl. split; [done|].
  split; [|done]. rewrite <- Hlen. by apply Forall2_length in Hf.
Qed.

(** Without [-p], once an assignment is found the script reads the
    content file (an empty name means no content) and then runs
    [send_assignment_emails]; a missing content file stops it before any
    SMTP command. *)
Theorem main_send_mode (items_of : assignment → pydict) (prog fn : string)
    (fs : Main.files) (r r' : rstate) (b : list Byte.byte) (w : world)
    (content : string) (config : Config) (a : assignment) :
  fs fn = Some content →
  parse_config_file (Main.file_lines content) = Ok config →
  assign_with_retries config r = Ok (a, r') →
  Main.main items_of prog [fn] fs r b w =
    send_assignment_emails (Uuid.assignment_uuid b) (items_of a) config None w ∧
  ∀ ecf, fn ≠ "-p" →
    Main.main items_of prog [fn; ecf] fs r b w =
      if String.eqb ecf "" then
        send_assignment_emails (Uuid.assignment_uuid b) (items_of a) config None w
      else match fs ecf with
           | Some c => send_assignment_emails (Uuid.assignment_uuid b) (items_of a) config (Some c) w
           | None => (Fail (FileNotFoundError ecf), w)
           end.
Proof.
  intros Hfs Hp Ha. split.
  - unfold Main.main. cbn [Main.dispatch]. unfold Main.open_read, io_bind, lift.
    rewrite Hfs. cbv beta iota delta [io_ret io_throw]. rewrite Hp.
    cbv beta iota delta [io_ret io_throw]. rewrite Ha. cbv beta iota delta [io_ret io_throw].
    reflexivity.
  - intros ecf Hne. unfold Main.main. cbn [Main.dispatch].
    rewrite (proj2 (String.eqb_neq _ _) Hne).
    unfold Main.open_read at 1, io_bind, lift.
    rewrite Hfs. cbv beta iota delta [io_ret io_throw]. rewrite Hp.
    cbv beta iota delta [io_ret io_throw]. rewrite Ha. cbv beta iota delta [io_ret io_throw].
    unfold Main.get_email_content.
    destruct (String.eqb ecf ""); [reflexivity|].
    unfold Main.open_read. destruct (fs ecf); reflexivity.
Qed.


(** ** Witnesses of the further properties *)
Lemma parse_config_file_closed_witness :
  parse_config_file docstring_lines = Ok docstring_config ∧
  participants docstring_config ≠ ∅ ∧
  map_Forall (λ id p, id ∈ exclusion_ids p ∧ exclusion_ids p ⊆ dom (participants docstring_config))
    (participants docstring_config).
Proof.
  assert (Hp : parse_config_file docstring_lines = Ok docstring_config) by (vm_compute; reflexivity).
  split; [exact Hp|]. exact (parse_config_file_closed _ _ Hp).
Defined.


Lemma parse_config_file_duplicate_witness :
  parse_config_file docstring_lines = Ok docstring_config ∧
  map PyStr.strip (PyStr.split "," "person_id2, name7, abcj@email.com, ()")
    = ["person_id2"; "name7"; "abcj@email.com"; "()"] ∧
  bad_exclusion_format "()" = false ∧
  "person_id2" ∈ dom (participants docstring_config) ∧
  parse_config_file ((docstring_lines ++ ["person_id2, name7, abcj@email.com, ()"; nl])%list)
    = Raise (Exception (DuplicatePersonId "person_id2")).
Proof.
  assert (Hp : parse_config_file docstring_lines = Ok docstring_config) by (vm_compute; reflexivity).
  assert (Hf : map PyStr.strip (PyStr.split "," "person_id2, name7, abcj@email.com, ()")
    = ["person_id2"; "name7"; "abcj@email.com"; "()"]) by (vm_compute; reflexivity).
  assert (Hb : bad_exclusion_format "()" = false) by reflexivity.
  assert (Hd : "person_id2" ∈ dom (participants docstring_config))
    by (apply (bool_decide_unpack _); vm_compute; reflexivity).
  split; [exact Hp|]. split; [exact Hf|]. split; [exact Hb|]. split; [exact Hd|].
  exact (parse_config_file_duplicate docstring_lines docstring_config
           "person_id2, name7, abcj@email.com, ()" [nl] _ _ _ _ Hp Hf Hb Hd).
Defined.

Lemma assign_with_retries_valid_witness :
  ∃ a r', parse_config_file docstring_lines = Ok docstring_config ∧
    assign_with_retries docstring_config zeros = Ok (a, r') ∧
    dom a = dom (participants docstring_config) ∧
    (∀ v, v ∈ dom (participants docstring_config) ↔ ∃ g, a !! g = Some v) ∧
    (∀ g1 g2 v, a !! g1 = Some v → a !! g2 = Some v → g1 = g2) ∧
    (∀ g v, a !! g = Some v →
       ∃ p, participants docstring_config !! g = Some p ∧ (v ∉ exclusion_ids p) ∧ v ≠ g).
Proof.
  assert (Hp : parse_config_file docstring_lines = Ok docstring_config) by (vm_compute; reflexivity).
  destruct (assign_with_retries docstring_config zeros) as [[a r']|e] eqn:E.
  - exists a, r'. split; [exact Hp|]. split; [reflexivity|].
    exact (assign_with_retries_valid _ _ _ _ _ Hp E).
  - vm_compute in E. discriminate.
Defined.

Lemma assign_with_retries_complete_witness :
  docstring_assignment ≠ ∅ ∧
  dom docstring_assignment = dom (participants docstring_config) ∧
  (∀ g1 g2 v, docstring_assignment !! g1 = Some v → docstring_assignment !! g2 = Some v →
     g1 = g2) ∧
  (∀ g v, docstring_assignment !! g = Some v →
     ∃ p, participants docstring_config !! g = Some p ∧
          v ∈ dom (participants docstring_config) ∧ v ∉ exclusion_ids p) ∧
  ∃ ds, ∀ r, get_assignments docstring_config (prepend ds r) = Ok (Some docstring_assignment, r) ∧
             assign_with_retries docstring_config (prepend ds r) = Ok (docstring_assignment, r).
Proof.
  assert (H1 : docstring_assignment ≠ ∅) by (apply (bool_decide_unpack _); vm_compute; reflexivity).
  assert (H2 : dom docstring_assignment = dom (participants docstring_config))
    by (apply (bool_decide_unpack _); vm_compute; reflexivity).
  assert (H3 : ∀ g1 g2 v, docstring_assignment !! g1 = Some v →
                 docstring_assignment !! g2 = Some v → g1 = g2).
  { assert (Hd : map_Forall (λ g1 v, map_Forall (λ g2 v', g1 = g2 ∨ v ≠ v') docstring_assignment)
                   docstring_assignment) by (apply (bool_decide_unpack _); vm_compute; reflexivity).
    intros g1 g2 v Hg1 Hg2. by destruct (Hd g1 v Hg1 g2 v Hg2). }
  assert (H4 : ∀ g v, docstring_assignment !! g = Some v →
     ∃ p, participants docstring_config !! g = Some p ∧
          v ∈ dom (participants docstring_config) ∧ v ∉ exclusion_ids p).
  { assert (Hd : map_Forall (λ g v,
        match participants docstring_config !! g with
        | Some p => bool_decide (v ∈ dom (participants docstring_config) ∧ v ∉ exclusion_ids p)
        | None => false
        end = true) docstring_assignment)
      by (apply (bool_decide_unpack _); vm_compute; reflexivity).
    intros g v Hg. specialize (Hd g v Hg). cbv beta in Hd.
    destruct (participants docstring_config !! g) as [p|]; [|discriminate].
    apply bool_decide_eq_true in Hd. eauto. }
  do 4 (split; [assumption|]).
  exact (assign_with_retries_complete docstring_config docstring_assignment H1 H2 H3 H4).
Defined.

Lemma empty_registry_infeasible_witness :
  participants empty_config = ∅ ∧
  get_assignments empty_config zeros = Ok (Some ∅, zeros) ∧
  assign_with_retries empty_config zeros = Raise (Exception (AssignmentInfeasible 4)).
Proof.
  split; [reflexivity|]. exact (empty_registry_infeasible empty_config zeros eq_refl).
Defined.

Lemma pretty_print_assignments_known_witness :
  (∀ g r, (g, r) ∈ [("person_id1", "person_id4"); ("person_id4", "person_id1")] →
     g ∈ dom (participants docstring_config) ∧ r ∈ dom (participants docstring_config)) ∧
  ∃ out, pretty_print_assignments "0a1b2c3" [("person_id1", "person_id4"); ("person_id4", "person_id1")]
           docstring_config = (("Assignment Id: " ++ "0a1b2c3") :: out, Ok tt) ∧
    Forall2 (λ '(g, r) line, ∃ pg pr, participants docstring_config !! g = Some pg ∧
               participants docstring_config !! r = Some pr ∧ line = gives_to (name pg) (name pr))
      [("person_id1", "person_id4"); ("person_id4", "person_id1")] out.
Proof.
  assert (Hk : ∀ g r, (g, r) ∈ [("person_id1", "person_id4"); ("person_id4", "person_id1")] →
     g ∈ dom (participants docstring_config) ∧ r ∈ dom (participants docstring_config)).
  { intros g r Hin. apply list_elem_of_In in Hin.
    destruct Hin as [[= <- <-]|[[= <- <-]|[]]];
      split; apply (bool_decide_unpack _); vm_compute; reflexivity. }
  split; [exact Hk|]. exact (pretty_print_assignments_known _ _ _ Hk).
Defined.

Lemma pretty_print_assignments_unknown_witness :
  (∀ g' r', (g', r') ∈ [("person_id1", "person_id4")] →
     g' ∈ dom (participants docstring_config) ∧ r' ∈ dom (participants docstring_config)) ∧
  ("person_id7" ∉ dom (participants docstring_config) ∨
   "person_id2" ∉ dom (participants docstring_config)) ∧
  ∃ out, pretty_print_assignments "0a1b2c3"
           (([("person_id1", "person_id4")] ++ ("person_id7", "person_id2") :: [])%list)
           docstring_config =
         (("Assignment Id: " ++ "0a1b2c3") :: out,
          Raise (KeyError (if decide ("person_id7" ∈ dom (participants docstring_config))
                           then "person_id2" else "person_id7"))) ∧
    length out = length [("person_id1", "person_id4")].
Proof.
  assert (Hk : ∀ g' r', (g', r') ∈ [("person_id1", "person_id4")] →
     g' ∈ dom (participants docstring_config) ∧ r' ∈ dom (participants docstring_config)).
  { intros g r Hin. apply list_elem_of_In in Hin.
    destruct Hin as [[= <- <-]|[]]; split; apply (bool_decide_unpack _); vm_compute; reflexivity. }
  assert (Hb : "person_id7" ∉ dom (participants docstring_config) ∨
               "person_id2" ∉ dom (participants docstring_config)).
  { left. apply (bool_decide_unpack _). vm_compute. reflexivity. }
  split; [exact Hk|]. split; [exact Hb|].
  exact (pretty_print_assignments_unknown _ _ _ _ _ _ Hk Hb).
Defined.



Lemma send_assignment_emails_success_witness :
  (∀ k, replies server_up k = true) ∧
  Forall2 (λ '(g, r) '(gn, ge, rn), ∃ pg pr, participants docstring_config !! g = Some pg ∧
             participants docstring_config !! r = Some pr ∧ gn = name pg ∧ ge = email pg ∧
             rn = name pr)
    [("person_id1", "person_id4"); ("person_id4", "person_id1")]
    [("name1", "abcd@email.com", "name4"); ("name4", "abcg@email.com", "name1")] ∧
  let admin := administrator_email docstring_config in
  let subject := "Alert: Secret Santa Assignment (" ++ "0a1b2c3" ++ ")" in
  let '(o, w') := send_assignment_emails "0a1b2c3"
                    [("person_id1", "person_id4"); ("person_id4", "person_id1")]
                    docstring_config (Some "Budget: 20 dollars.") server_up in
  o = Return tt ∧
  trace w' = app (trace server_up)
    (app [SmtpConnect "smtp.gmail.com" 587; SmtpStartTLS;
          SmtpLogin admin (administrator_email_password docstring_config)]
    (app (flat_map (λ '(gn, ge, rn),
           [SmtpSendmail admin ge
              ("Subject: " ++ subject ++ lf ++ lf ++ gives_to gn rn ++
               (if content_truthy (Some "Budget: 20 dollars.")
                then crlf ++ crlf ++ default "" (Some "Budget: 20 dollars.") else ""));
            Stdout ("Sent assignment to " ++ ge ++ ".")])
           [("name1", "abcd@email.com", "name4"); ("name4", "abcg@email.com", "name1")])
         [SmtpSendmail admin admin
            (generate_administrator_email_message "0a1b2c3"
               (foldl (λ d '(gn, _, rn), dict_set d gn rn) []
                  [("name1", "abcd@email.com", "name4"); ("name4", "abcg@email.com", "name1")])
               admin);
          Stdout ("Sent all assignments to " ++ admin ++ ".");
          SmtpQuit])).
Proof.
  assert (Hr : ∀ k, replies server_up k = true) by reflexivity.
  assert (Hf : Forall2 (λ '(g, r) '(gn, ge, rn), ∃ pg pr,
             participants docstring_config !! g = Some pg ∧
             participants docstring_config !! r = Some pr ∧ gn = name pg ∧ ge = email pg ∧
             rn = name pr)
    [("person_id1", "person_id4"); ("person_id4", "person_id1")]
    [("name1", "abcd@email.com", "name4"); ("name4", "abcg@email.com", "name1")]).
  { repeat constructor; do 2 eexists; repeat split; vm_compute; reflexivity. }
  split; [exact Hr|]. split; [exact Hf|].
  exact (send_assignment_emails_success "0a1b2c3" _ _ (Some "Budget: 20 dollars.") _ _ Hr Hf).
Defined.

Lemma main_usage_witness :
  length (@nil string) ≠ 1 ∧ length (@nil string) ≠ 2 ∧
  Main.main (λ a, map_to_list a) "secret_santa.py" [] example_files zeros uuid_bytes server_up =
  (Fail (SystemExit 1),
   {| trace := app (trace server_up)
        [Stdout ("To generate and send emails:" ++ lf ++ String (ascii_of_nat 9)
                   ("usage: python " ++ "secret_santa.py" ++ " config_filename [email_content_filename]"));
         Stdout ("To generate and print output without emails:" ++ lf ++ String (ascii_of_nat 9)
                   ("usage: python " ++ "secret_santa.py" ++ " -p config_filename"))];
      replies := replies server_up |}).
Proof.
  split; [discriminate|]. split; [discriminate|].
  exact (main_usage _ _ [] _ _ _ _ ltac:(discriminate) ltac:(discriminate)).
Defined.

Lemma main_no_assignment_witness :
  Main.dispatch ["config.txt"] = Main.Run "config.txt" true None ∧
  (∀ content config, no_files "config.txt" = Some content →
     parse_config_file (Main.file_lines content) = Ok config →
     ∃ e, assign_with_retries config zeros = Raise e) ∧
  ∃ e, Main.main (λ a, map_to_list a) "secret_santa.py" ["config.txt"] no_files zeros
         uuid_bytes server_up = (Fail e, server_up) ∧
       (e = FileNotFoundError "config.txt" ∨ ∃ x, e = PyExn x).
Proof.
  assert (Hd : Main.dispatch ["config.txt"] = Main.Run "config.txt" true None) by reflexivity.
  assert (Hn : ∀ content config, no_files "config.txt" = Some content →
     parse_config_file (Main.file_lines content) = Ok config →
     ∃ e, assign_with_retries config zeros = Raise e) by discriminate.
  split; [exact Hd|]. split; [exact Hn|].
  exact (main_no_assignment _ _ _ _ _ _ _ _ _ _ Hd Hn).
Defined.

Lemma main_print_mode_success_witness :
  ∃ a r', example_files "config.txt" = Some docstring_file ∧
    parse_config_file (Main.file_lines docstring_file) = Ok docstring_config ∧
    assign_with_retries docstring_config zeros = Ok (a, r') ∧
    map_to_list a ≡ₚ map_to_list a ∧
    ∃ out, Main.main (λ a, map_to_list a) "secret_santa.py" ["-p"; "config.txt"] example_files
             zeros uuid_bytes server_up =
           (Return tt,
            {| trace := app (trace server_up)
                 (map Stdout (("Assignment Id: " ++ Uuid.assignment_uuid uuid_bytes) :: out));
               replies := replies server_up |}) ∧
      length out = size (participants docstring_config) ∧
      Forall2 (λ '(g, v) line, ∃ pg pv, participants docstring_config !! g = Some pg ∧
                 participants docstring_config !! v = Some pv ∧
                 line = gives_to (name pg) (name pv))
        (map_to_list a) out.
Proof.
  assert (Hfs : example_files "config.txt" = Some docstring_file) by reflexivity.
  assert (Hp : parse_config_file (Main.file_lines docstring_file) = Ok docstring_config)
    by (vm_compute; reflexivity).
  destruct (assign_with_retries docstring_config zeros) as [[a r']|e] eqn:E.
  - exists a, r'. split; [exact Hfs|]. split; [exact Hp|]. split; [reflexivity|].
    split; [reflexivity|].
    exact (main_print_mode_success (λ a, map_to_list a) _ _ _ _ _ _ _ _ _ _
             Hfs Hp E (reflexivity _)).
  - vm_compute in E. discriminate.
Defined.

Lemma main_send_mode_witness :
  ∃ a r', example_files "config.txt" = Some docstring_file ∧
    parse_config_file (Main.file_lines docstring_file) = Ok docstring_config ∧
    assign_with_retries docstring_config zeros = Ok (a, r') ∧
    (Main.main (λ a, map_to_list a) "secret_santa.py" ["config.txt"] example_files zeros
       uuid_bytes server_up =
     send_assignment_emails (Uuid.assignment_uuid uuid_bytes) (map_to_list a) docstring_config
       None server_up ∧
     ∀ ecf, "config.txt" ≠ "-p" →
       Main.main (λ a, map_to_list a) "secret_santa.py" ["config.txt"; ecf] example_files zeros
         uuid_bytes server_up =
       if String.eqb ecf "" then
         send_assignment_emails (Uuid.assignment_uuid uuid_bytes) (map_to_list a)
           docstring_config None server_up
       else match example_files ecf with
            | Some c => send_assignment_emails (Uuid.assignment_uuid uuid_bytes) (map_to_list a)
                          docstring_config (Some c) server_up
            | None => (Fail (FileNotFoundError ecf), server_up)
            end).
Proof.
  assert (Hfs : example_files "config.txt" = Some docstring_file) by reflexivity.
  assert (Hp : parse_config_file (Main.file_lines docstring_file) = Ok docstring_config)
    by (vm_compute; reflexivity).
  destruct (assign_with_retries docstring_config zeros) as [[a r']|e] eqn:E.
  - exists a, r'. split; [exact Hfs|]. split; [exact Hp|]. split; [reflexivity|].
    exact (main_send_mode (λ a, map_to_list a) _ _ _ _ _ _ _ _ _ _ Hfs Hp E).
  - vm_compute in E. discriminate.
Defined.
